(** * dataplug: FASTA preprocessing, partition planning and slice materialisation

    Shallow embedding of [dataplug/formats/genomics/fasta.py]:
    - [preprocess_fasta]  : the per-chunk scan for sequence identifier lines,
    - [merge_fasta_metadata] : the concatenation of the per-chunk results,
    - [partition_chunks_strategy] : the planner of byte ranges,
    - [get] (method of [FASTASlice]) : the materialiser of one slice.

    Conventions.  Python [int]s are [Z]; [bytes] are [list byte]; lists are
    lists.  The index is the [(num_sequences, 2)] array of the source, kept as
    a list of rows [(id_offset, seq_offset)] whose values are checked to fit
    a [uint32] where the array is built; [tobytes], [frombuffer] and
    [reshape] of the row-major array are the identity on that list.  NumPy
    is NumPy 2: a Python [int] that does not fit the [uint32] it meets raises
    [OverflowError], and [uint32] arithmetic wraps.  Exceptions are values of
    [exn] carried by [result]. *)

From Stdlib Require Import Strings.Byte Strings.String Numbers.DecimalString.
From Stdlib Require Import ZArith List Bool Lia Sorted.
From Stdlib Require DecimalPos DecimalZ.
Import ListNotations.

Local Open Scope Z_scope.

(* ================================================================= *)
(** ** Bytes *)

Definition bytes := list byte.

(** [b"\n"] and [b">"]. *)
Definition NL : byte := x0a.
Definition GT : byte := x3e.

(** A bytes literal without escapes. *)
Definition b (s : string) : bytes := list_byte_of_string s.

(* ================================================================= *)
(** ** Exceptions *)

Inductive exn : Type :=
| IndexError
| AssertionError
| ZeroDivisionError
| OverflowError
| ValueError.

Inductive result (A : Type) : Type :=
| Ok (a : A)
| Raise (e : exn).

Arguments Ok {A} a.
Arguments Raise {A} e.

Definition bind {A B : Type} (r : result A) (k : A -> result B) : result B :=
  match r with
  | Ok a => k a
  | Raise e => Raise e
  end.

Notation "x <- r ;; k" := (bind r (fun x => k))
  (at level 61, r at next level, right associativity).

(** A [for] loop that appends one value per element and stops at the first
    exception. *)
Fixpoint for_each {A B : Type} (f : A -> result B) (l : list A) : result (list B) :=
  match l with
  | [] => Ok []
  | a :: l' => y <- f a ;; ys <- for_each f l' ;; Ok (y :: ys)
  end.

(* ================================================================= *)
(** ** The regular expression [rb">.+(\n)?"] *)

(** [.+] and [.*] are greedy and [.] matches every byte but a newline: the
    longest run of bytes other than [NL] at the head of [l]. *)
Fixpoint dots (l : bytes) : bytes :=
  match l with
  | [] => []
  | c :: t => if Byte.eqb c NL then [] else c :: dots t
  end.

(** [re.match(rb">.+(\n)?", l)]: the matched group, when the pattern matches
    at the head of [l].  [>] , then one byte or more of [.], then the newline
    when it is there. *)
Definition re_match (l : bytes) : option bytes :=
  match l with
  | [] => None
  | c :: t =>
      if Byte.eqb c GT then
        match dots t with
        | [] => None
        | run =>
            match skipn (length run) t with
            | n :: _ => if Byte.eqb n NL then Some (c :: run ++ [n])
                        else Some (c :: run)
            | [] => Some (c :: run)
            end
        end
      else None
  end.

(** A match object: [start()] and [group()]; [end()] is derived. *)
Record re_Match : Type := mkMatch { m_start : nat; m_group : bytes }.

Definition m_end (m : re_Match) : nat := (m_start m + length (m_group m))%nat.

(** [re.finditer]: scan from left to right; after a match the scan resumes at
    its end, otherwise one byte further.  Every step consumes a byte, so
    [length data] steps are enough. *)
Fixpoint finditer_from (fuel : nat) (pos : nat) (l : bytes) : list re_Match :=
  match fuel with
  | O => []
  | S fuel' =>
      match l with
      | [] => []
      | _ :: t =>
          match re_match l with
          | Some g =>
              mkMatch pos g
                :: finditer_from fuel' (pos + length g)%nat (skipn (length g) l)
          | None => finditer_from fuel' (S pos) t
          end
      end
  end.

Definition finditer (data : bytes) : list re_Match :=
  finditer_from (length data) 0%nat data.

(** [b"\n" in g]. *)
Definition contains_newline (g : bytes) : bool := existsb (Byte.eqb NL) g.

(* ================================================================= *)
(** ** The object as a file *)

(** [readline()]: the bytes up to and including the next newline, or up to
    the end of the file. *)
Fixpoint readline (l : bytes) : bytes :=
  match l with
  | [] => []
  | c :: t => if Byte.eqb c NL then [c] else c :: readline t
  end.

(** [matches[-1]] of a non-empty list. *)
Fixpoint last_match (ms : list re_Match) : option re_Match :=
  match ms with
  | [] => None
  | [m] => Some m
  | _ :: ms' => last_match ms'
  end.

(* ================================================================= *)
(** ** [uint32] *)

(** The values a [uint32] holds. *)
Definition in_uint32 (z : Z) : bool := (0 <=? z) && (z <? 2 ^ 32).

(** [np.array(rows, dtype=np.uint32)] of a list of pairs of Python [int]s:
    the rows as they are when every value fits, [OverflowError] otherwise. *)
Definition np_array_uint32 (rows : list (Z * Z)) : result (list (Z * Z)) :=
  if forallb (fun r => in_uint32 (fst r) && in_uint32 (snd r)) rows
  then Ok rows
  else Raise OverflowError.

(** [a - x] for a Python [int] [a] and a [uint32] scalar [x]: [a] is taken
    as a [uint32], which raises [OverflowError] when it does not fit, and the
    difference wraps. *)
Definition uint32_rsub (a x : Z) : result Z :=
  if in_uint32 a then Ok ((a - x) mod 2 ^ 32) else Raise OverflowError.

(* ================================================================= *)
(** ** [preprocess_fasta] *)

(** Lines 26-56: the list [sequences]. *)
Definition find_sequences (cloud_object : bytes) (chunk_data : bytes)
           (chunk_id chunk_size : Z) : list (Z * Z) :=
  let chunk_offset := chunk_id * chunk_size in
  let data := chunk_data in
  let matches := finditer data in
  let sequences :=
    map (fun m => (chunk_offset + Z.of_nat (m_start m),
                   chunk_offset + Z.of_nat (m_end m))) matches in
  match last_match matches with
  | Some m =>
      if negb (contains_newline (m_group m)) then
        let offset := chunk_offset + Z.of_nat (m_start m) in
        let seq_id_line := readline (skipn (Z.to_nat offset) cloud_object) in
        let end_ := offset + Z.of_nat (length seq_id_line) in
        removelast sequences ++ [(offset, end_)]
      else sequences
  | None => sequences
  end.

(** Lines 61-63: the list as a [uint32] array. *)
Definition preprocess_fasta (cloud_object : bytes) (chunk_data : bytes)
           (chunk_id chunk_size : Z) : result (list (Z * Z)) :=
  let sequences := find_sequences cloud_object chunk_data chunk_id chunk_size in
  np_array_uint32 sequences.

(** Modelled from the spec: the window handed to [preprocess_fasta] by the
    host framework as [chunk_data], which is not part of this file: the bytes
    of the object in [[chunk_offset, chunk_offset + chunk_size)], cut at the
    end of the object. *)
Definition window (cloud_object : bytes) (chunk_id chunk_size : Z) : bytes :=
  firstn (Z.to_nat chunk_size) (skipn (Z.to_nat (chunk_id * chunk_size)) cloud_object).

(* ================================================================= *)
(** ** [merge_fasta_metadata] *)

(** [np.concatenate] raises [ValueError] on an empty list of arrays. *)
Definition merge_fasta_metadata (chunk_metadata : list (list (Z * Z)))
  : result (list (Z * Z) * Z) :=
  let map_results := chunk_metadata in
  let num_sequences :=
    fold_right (fun arr acc => Z.of_nat (length arr) + acc) 0 map_results in
  match map_results with
  | [] => Raise ValueError
  | _ =>
      let idx := concat map_results in
      Ok (idx, num_sequences)
  end.

(** The preprocessing job: chunks [0 .. num_chunks-1] scanned one by one and
    merged in that order. *)
Definition preprocess (cloud_object : bytes) (chunk_size : Z) (num_chunks : nat)
  : result (list (Z * Z) * Z) :=
  chunk_metadata <-
    for_each (fun i => preprocess_fasta cloud_object
                         (window cloud_object (Z.of_nat i) chunk_size)
                         (Z.of_nat i) chunk_size)
             (seq 0 num_chunks) ;;
  merge_fasta_metadata chunk_metadata.

(** The whole object read as a single chunk. *)
Definition preprocess_whole (cloud_object : bytes) : result (list (Z * Z) * Z) :=
  rows <- preprocess_fasta cloud_object cloud_object 0
            (Z.of_nat (length cloud_object)) ;;
  merge_fasta_metadata [rows].

(* ================================================================= *)
(** ** numpy helpers of the planner *)

(** [a[i]] on the first axis: a negative index counts from the end, an index
    out of bounds raises [IndexError]. *)
Definition getitem {A : Type} (a : list A) (i : Z) : result A :=
  let n := Z.of_nat (length a) in
  let j := if i <? 0 then i + n else i in
  if (0 <=? j) && (j <? n) then
    match nth_error a (Z.to_nat j) with
    | Some x => Ok x
    | None => Raise IndexError
    end
  else Raise IndexError.

(** The binary search of NumPy for [side='left']: the interval
    [[min_idx, max_idx)] is halved until it is empty; every step shortens it,
    so as many steps as the array is long are enough. *)
Fixpoint binsearch_left (fuel : nat) (arr : list Z) (key : Z)
         (min_idx max_idx : nat) : nat :=
  match fuel with
  | O => min_idx
  | S fuel' =>
      if (min_idx <? max_idx)%nat then
        let mid_idx := (min_idx + (max_idx - min_idx) / 2)%nat in
        if nth mid_idx arr 0 <? key
        then binsearch_left fuel' arr key (S mid_idx) max_idx
        else binsearch_left fuel' arr key min_idx mid_idx
      else min_idx
  end.

(** [a.searchsorted(v)] with the default [side='left']. *)
Definition searchsorted (a : list Z) (v : Z) : Z :=
  Z.of_nat (binsearch_left (length a) a v 0 (length a)).

(** [math.ceil(a / n)].  The quotient is a float in the source; its ceiling
    is the integer ceiling written here for [0 <= a < 2^53] and
    [1 <= n < 2^53], the domain of the statements that depend on its
    value. *)
Definition ceil_div (a n : Z) : Z := - ((- a) / n).

(** [range(n)]. *)
Definition range (n : Z) : list Z := map Z.of_nat (seq 0 (Z.to_nat n)).

(* ================================================================= *)
(** ** [FASTASlice] and [partition_chunks_strategy] *)

Record FASTASlice : Type := mkSlice {
  offset : Z;
  header : option (Z * Z);
  range_0 : Z;
  range_1 : Z
}.

(** Line 121-122: the candidate ranges. *)
Definition chunk_ranges (size num_chunks : Z) : result (list (Z * Z)) :=
  if num_chunks =? 0 then Raise ZeroDivisionError
  else
    let chunk_sz := ceil_div size num_chunks in
    Ok (map (fun i => (chunk_sz * i, chunk_sz * i + chunk_sz)) (range num_chunks)).

(** Lines 126-156: the body of the loop over the candidate ranges.  The rows
    of [idx] are [uint32] scalars and [r0], [r1] Python [int]s: the
    comparisons are exact, the difference [r0 - top_seq_offset] is a
    [uint32] difference. *)
Definition chunk_slice (idx : list (Z * Z)) (r : Z * Z) : result FASTASlice :=
  let '(r0, r1) := r in
  let seq_top_i := searchsorted (map snd idx) r0 in
  let seq_top_i := if 0 <? seq_top_i then seq_top_i - 1 else 0 in
  seq_top <- getitem idx seq_top_i ;;
  let '(top_id_offset, top_seq_offset) := seq_top in
  top <-
    (if (top_id_offset <=? r0) && (r0 <? top_seq_offset)
     then Ok (top_id_offset, 0, None)
     else offset <- uint32_rsub r0 top_seq_offset ;;
          Ok (r0, offset, Some (top_id_offset, top_seq_offset))) ;;
  let '(r0, offset, header) := top in
  let seq_bot_i := searchsorted (map snd idx) r0 in
  let seq_bot_i :=
    if seq_bot_i =? Z.of_nat (length idx) then Z.of_nat (length idx) - 1
    else seq_bot_i in
  seq_bot <- getitem idx seq_bot_i ;;
  let '(bot_id_offset, bot_seq_offset) := seq_bot in
  let r1 := if (bot_id_offset <=? r1) && (r1 <? bot_seq_offset)
            then bot_id_offset else r1 in
  Ok (mkSlice offset header r0 r1).

Definition partition_chunks_strategy (idx : list (Z * Z)) (size num_chunks : Z)
  : result (list FASTASlice) :=
  ranges <- chunk_ranges size num_chunks ;;
  for_each (chunk_slice idx) ranges.

(* ================================================================= *)
(** ** [FASTASlice.get] *)

(** What [get_object] answers: the status code and the body. *)
Record response : Type := mkResponse { HTTPStatusCode : Z; Body : bytes }.

(** The storage client, as [get] uses it: one answer per [Range] header
    [bytes=first-last] (both ends inclusive). *)
Definition storage := Z -> Z -> response.

(** [status in (200, 206)]. *)
Definition status_ok (r : response) : bool :=
  (HTTPStatusCode r =? 200) || (HTTPStatusCode r =? 206).

(** [str(n)] of an integer, as bytes. *)
Definition decimal (n : Z) : bytes :=
  list_byte_of_string (NilZero.string_of_int (Z.to_int n)).

(** [get]: the requests sent, in order, and the bytes returned or the
    exception raised. *)
Definition get (st : storage) (self : FASTASlice)
  : list (Z * Z) * result bytes :=
  let req := (range_0 self, range_1 self - 1) in
  let get_response := st (fst req) (snd req) in
  if negb (status_ok get_response) then ([req], Raise AssertionError)
  else
    match header self with
    | Some (header_r0, header_r1) =>
        let hreq := (header_r0, header_r1 - 1) in
        let header_response := st (fst hreq) (snd hreq) in
        if negb (status_ok get_response) then ([req; hreq], Raise AssertionError)
        else
          let header_line := Body header_response in
          ([req; hreq],
           Ok ((removelast header_line ++ (b " offset=" ++ decimal (offset self))
                  ++ [NL])
                 ++ Body get_response))
    | None => ([req], Ok (Body get_response))
    end.

(** Modelled from the spec: the object store, which is not part of this
    file: a range read answers 206 with the bytes of the object from [first]
    to [last] inclusive. *)
Definition object_store (obj : bytes) : storage :=
  fun first last =>
    mkResponse 206 (firstn (Z.to_nat (last + 1 - first)) (skipn (Z.to_nat first) obj)).

(** The bytes of the object in the half-open range. *)
Definition byte_range (obj : bytes) (r0 r1 : Z) : bytes :=
  firstn (Z.to_nat (r1 - r0)) (skipn (Z.to_nat r0) obj).

(* ================================================================= *)
(** ** What the specification asks for, in its own words *)

(** The ranges [rs], in order, tile [[lo, hi)]: the first starts at [lo],
    each one starts where the one before it ends, the last ends at [hi]. *)
Fixpoint tiles (lo : Z) (rs : list (Z * Z)) (hi : Z) : Prop :=
  match rs with
  | [] => lo = hi
  | (r0, r1) :: rs' => r0 = lo /\ r0 <= r1 /\ tiles r1 rs' hi
  end.

Definition slice_range (s : FASTASlice) : Z * Z := (range_0 s, range_1 s).

(** Step 1 of the planner as the specification words it: ranges of size
    [ceil(size / n)], the last one clipped to [size]. *)
Definition clipped_ranges (size n : Z) : list (Z * Z) :=
  let c := ceil_div size n in
  map (fun i => (c * i, if i =? n - 1 then Z.min (c * i + c) size else c * i + c))
      (range n).

(** Step 3 of the planner as the specification words it: the end of the
    range is the header start of the record whose header line holds [r1],
    and [r1] when there is none. *)
Definition trimmed_end (idx : list (Z * Z)) (r1 : Z) : Z :=
  match find (fun rec => (fst rec <=? r1) && (r1 <? snd rec)) idx with
  | Some rec => fst rec
  | None => r1
  end.

(** A header line with its trailing newline removed. *)
Fixpoint strip_trailing_newline (l : bytes) : bytes :=
  match l with
  | [] => []
  | [c] => if Byte.eqb c NL then [] else [c]
  | c :: t => c :: strip_trailing_newline t
  end.

(** The fragment the specification describes for a slice of [obj]. *)
Definition fragment (obj : bytes) (self : FASTASlice) : bytes :=
  let payload := byte_range obj (range_0 self) (range_1 self) in
  match header self with
  | Some (h0, h1) =>
      strip_trailing_newline (byte_range obj h0 h1)
        ++ (b " offset=" ++ decimal (offset self)) ++ [NL] ++ payload
  | None => payload
  end.

(** The rows of the index of an object of [size] bytes: no offset is
    negative or past the end of the object. *)
Definition rows_in_object (idx : list (Z * Z)) (size : Z) : Prop :=
  Forall (fun rec => 0 <= fst rec /\ 0 <= snd rec <= size) idx.

(** An offset moved back to the start of the first header line [[h0, s0)]
    when it lies in it. *)
Definition snap_to_first (h0 s0 x : Z) : Z :=
  if (h0 <=? x) && (x <? s0) then h0 else x.

(** The candidate range [[r0, r1)] has its end cut back into the header line
    of a later row: the first row whose sequence start is not below the
    start of the range (the start moved back to the first header when it
    lies in the first header line) holds [r1] strictly inside its header
    line, and [r1] is not in the first header line. *)
Definition end_cut_into_header (idx : list (Z * Z)) (r0 r1 : Z) : Prop :=
  match idx with
  | [] => False
  | (h0, s0) :: _ =>
      let start := snap_to_first h0 s0 r0 in
      exists rec,
        find (fun rec => start <=? snd rec) idx = Some rec /\
        fst rec < r1 < snd rec /\ ~ (h0 <= r1 < s0)
  end.

(** Where the line that starts at position [p] of the object ends: after
    its newline, or at the end of the object. *)
Definition line_end (cloud_object : bytes) (p : nat) : nat :=
  (p + length (readline (skipn p cloud_object)))%nat.

(** The row of a mark found at position [o + start] of the object: the mark
    and the end of its line. *)
Definition resolved (cloud_object : bytes) (o : nat) (m : re_Match) : Z * Z :=
  (Z.of_nat (o + m_start m), Z.of_nat (line_end cloud_object (o + m_start m))).

(** The positions in the object of the marks found in window [i]. *)
Definition marks (cloud_object : bytes) (chunk_size : Z) (i : nat) : list nat :=
  map (fun m => (i * Z.to_nat chunk_size + m_start m)%nat)
      (finditer (window cloud_object (Z.of_nat i) chunk_size)).

(** The row of the mark at position [p]. *)
Definition row (cloud_object : bytes) (p : nat) : Z * Z :=
  (Z.of_nat p, Z.of_nat (line_end cloud_object p)).

(** Every [>] of the object starts a line and is followed by a byte of its
    name. *)
Definition headers_at_line_starts (cloud_object : bytes) : Prop :=
  forall p, nth_error cloud_object p = Some GT ->
    (p = 0%nat \/ nth_error cloud_object (p - 1) = Some NL) /\
    exists c, nth_error cloud_object (p + 1) = Some c /\ c <> NL.

(** No window of [c] bytes ends right after a [>]. *)
Definition no_cut_after_mark (cloud_object : bytes) (c : nat) : Prop :=
  forall p i, nth_error cloud_object p = Some GT ->
    (i * c <= p < (i + 1) * c)%nat -> (p + 1 < (i + 1) * c)%nat.

(* ================================================================= *)
(** ** Sample objects *)

Definition file22 : bytes :=
  b ">seq1" ++ [NL] ++ b "ACGT" ++ [NL] ++ b ">seq2" ++ [NL] ++ b "GGGG" ++ [NL].

Definition file24 : bytes :=
  b ">seq01" ++ [NL] ++ b "ACGT" ++ [NL] ++ b ">seq02" ++ [NL] ++ b "GGGG" ++ [NL].

(** A 30-byte object with the same two headers and a longer last record. *)
Definition file30 : bytes :=
  b ">seq01" ++ [NL] ++ b "ACGT" ++ [NL] ++ b ">seq02" ++ [NL]
    ++ b "GGGGGGGGGG" ++ [NL].

(** One header line with a second [>] inside. *)
Definition file7 : bytes := b ">se>q1" ++ [NL].

(** An object made of one header line that no newline ends. *)
Definition file2 : bytes := b ">a".

(** A store that answers the range read starting at [h0] with status 500 and
    an error body, and every other read as [object_store] does. *)
Definition store_failing_at (obj : bytes) (h0 : Z) : storage :=
  fun first last =>
    if first =? h0 then mkResponse 500 (b "InternalError")
    else object_store obj first last.

(* ================================================================= *)
(** * Properties of the planner *)

Section Planner.

Lemma ceil_div_bounds (size n : Z) :
  1 <= n -> size <= ceil_div size n * n < size + n.
Proof.
  intros Hn. unfold ceil_div.
  pose proof (Z.div_mod (- size) n ltac:(lia)) as Hdm.
  pose proof (Z.mod_pos_bound (- size) n ltac:(lia)) as Hr.
  nia.
Qed.

Lemma ceil_div_nonneg (size n : Z) : 1 <= n -> 0 <= size -> 0 <= ceil_div size n.
Proof.
  intros Hn Hs. pose proof (ceil_div_bounds size n Hn). nia.
Qed.

Lemma range_length (n : Z) : length (range n) = Z.to_nat n.
Proof. unfold range. now rewrite length_map, length_seq. Qed.

Lemma range_In (n i : Z) : In i (range n) <-> 0 <= i < n.
Proof.
  unfold range. rewrite in_map_iff. split.
  - intros (k & <- & Hk). apply in_seq in Hk. lia.
  - intros Hi. exists (Z.to_nat i). split; [lia|]. apply in_seq. lia.
Qed.

(** The ranges [(c*i, c*i+c)] for [i = k, k+1, ..., k+m-1] tile
    [[c*k, c*(k+m))]. *)
Lemma tiles_seq (c : Z) (m k : nat) :
  0 <= c ->
  tiles (c * Z.of_nat k)
        (map (fun i => (c * i, c * i + c)) (map Z.of_nat (seq k m)))
        (c * Z.of_nat (k + m)).
Proof.
  intros Hc. revert k. induction m as [|m IH]; intros k; simpl.
  - f_equal. lia.
  - split; [reflexivity|]. split; [lia|].
    replace (c * Z.of_nat k + c) with (c * Z.of_nat (S k)) by lia.
    replace (k + S m)%nat with (S k + m)%nat by lia. apply IH.
Qed.

(** *** The binary search *)

Lemma div2_lt (m : nat) : (0 < m)%nat -> (m / 2 < m)%nat.
Proof. intros Hm. apply Nat.div_lt; lia. Qed.

Lemma binsearch_left_bounds (fuel : nat) (arr : list Z) (key : Z)
      (min_idx max_idx : nat) :
  (min_idx <= max_idx)%nat ->
  (min_idx <= binsearch_left fuel arr key min_idx max_idx <= max_idx)%nat.
Proof.
  revert min_idx max_idx. induction fuel as [|fuel IH]; intros lo hi Hle;
    cbn [binsearch_left]; [lia|].
  destruct (lo <? hi)%nat eqn:E; [|lia].
  apply Nat.ltb_lt in E.
  pose proof (div2_lt (hi - lo) ltac:(lia)) as Hd.
  destruct (nth (lo + (hi - lo) / 2) arr 0 <? key).
  - specialize (IH (S (lo + (hi - lo) / 2)) hi ltac:(lia)). lia.
  - specialize (IH lo (lo + (hi - lo) / 2)%nat ltac:(lia)). lia.
Qed.

Lemma searchsorted_bounds (a : list Z) (v : Z) :
  0 <= searchsorted a v <= Z.of_nat (length a).
Proof.
  unfold searchsorted.
  pose proof (binsearch_left_bounds (length a) a v 0 (length a) ltac:(lia)).
  lia.
Qed.

Lemma sorted_nth_le (a : list Z) (j k : nat) (x y : Z) :
  StronglySorted Z.le a -> (j <= k)%nat ->
  nth_error a j = Some x -> nth_error a k = Some y -> x <= y.
Proof.
  intros Hs. revert j k. induction Hs as [|z a Hs IH Hz]; intros j k Hjk Hx Hy.
  - destruct j; discriminate Hx.
  - destruct j as [|j], k as [|k]; cbn [nth_error] in Hx, Hy; try lia.
    + injection Hx as <-. injection Hy as <-. lia.
    + injection Hx as <-. rewrite Forall_forall in Hz. apply Hz.
      eapply nth_error_In; eauto.
    + apply (IH j k); [lia|assumption|assumption].
Qed.

(** On a sorted array the search ends between the elements below the key
    and the others. *)
Lemma binsearch_left_sorted (arr : list Z) (key : Z) :
  StronglySorted Z.le arr ->
  forall fuel min_idx max_idx,
    (min_idx <= max_idx <= length arr)%nat ->
    (max_idx - min_idx <= fuel)%nat ->
    (forall k x, (k < min_idx)%nat -> nth_error arr k = Some x -> x < key) ->
    (forall k x, (max_idx <= k)%nat -> nth_error arr k = Some x -> key <= x) ->
    (forall k x, (k < binsearch_left fuel arr key min_idx max_idx)%nat ->
                 nth_error arr k = Some x -> x < key) /\
    (forall k x, (binsearch_left fuel arr key min_idx max_idx <= k)%nat ->
                 nth_error arr k = Some x -> key <= x).
Proof.
  intros Hs. induction fuel as [|fuel IH]; intros lo hi Hle Hf Hlo Hhi;
    cbn [binsearch_left].
  - assert (lo = hi) by lia. subst hi. split; assumption.
  - destruct (lo <? hi)%nat eqn:E.
    + apply Nat.ltb_lt in E.
      pose proof (div2_lt (hi - lo) ltac:(lia)) as Hd.
      set (mid := (lo + (hi - lo) / 2)%nat) in *.
      assert (Hmid : nth_error arr mid = Some (nth mid arr 0)).
      { apply nth_error_nth'. lia. }
      destruct (nth mid arr 0 <? key) eqn:Ec.
      * apply IH; [lia|lia| |assumption].
        intros k x Hk Hx.
        pose proof (sorted_nth_le arr k mid x _ Hs ltac:(lia) Hx Hmid). lia.
      * apply IH; [lia|lia|assumption|].
        intros k x Hk Hx.
        pose proof (sorted_nth_le arr mid k _ x Hs ltac:(lia) Hmid Hx). lia.
    + apply Nat.ltb_ge in E. assert (lo = hi) by lia. subst hi.
      split; assumption.
Qed.

(** [searchsorted] on a sorted column: the elements before the insertion
    point are below the value, the others are not. *)
Lemma searchsorted_sorted (a : list Z) (v : Z) :
  StronglySorted Z.le a ->
  (forall k x, Z.of_nat k < searchsorted a v -> nth_error a k = Some x -> x < v) /\
  (forall k x, searchsorted a v <= Z.of_nat k -> nth_error a k = Some x -> v <= x).
Proof.
  intros Hs. unfold searchsorted.
  destruct (binsearch_left_sorted a v Hs (length a) 0 (length a))
    as [H1 H2]; try lia.
  - intros k x Hk Hx. apply nth_error_None in Hk. congruence.
  - split; intros k x Hk Hx; [apply (H1 k)|apply (H2 k)]; solve [lia|assumption].
Qed.

Lemma searchsorted_below (a : list Z) (v : Z) (k : nat) (x : Z) :
  StronglySorted Z.le a ->
  Z.of_nat k < searchsorted a v -> nth_error a k = Some x -> x < v.
Proof. intros Hs. apply (searchsorted_sorted a v Hs). Qed.

(** In a sorted column every element below the value stands before the
    insertion point. *)
Lemma searchsorted_sorted_below (a : list Z) (v x : Z) :
  StronglySorted Z.le a -> In x a -> x < v ->
  exists k, Z.of_nat k < searchsorted a v /\ nth_error a k = Some x.
Proof.
  intros Hs Hin Hx. apply In_nth_error in Hin. destruct Hin as (k & Hk).
  exists k. split; [|exact Hk].
  destruct (Z_lt_le_dec (Z.of_nat k) (searchsorted a v)) as [H|H]; [exact H|].
  pose proof (proj2 (searchsorted_sorted a v Hs) k x H Hk). lia.
Qed.

(** *** Indexing *)

Lemma getitem_in_bounds {A : Type} (a : list A) (i : Z) :
  0 <= i < Z.of_nat (length a) ->
  exists x, getitem a i = Ok x /\ In x a.
Proof.
  intros Hi. unfold getitem.
  destruct (i <? 0) eqn:E; [lia|].
  replace ((0 <=? i) && (i <? Z.of_nat (length a))) with true by lia.
  destruct (nth_error a (Z.to_nat i)) as [x|] eqn:Hn.
  - exists x. split; [reflexivity|]. eapply nth_error_In; eauto.
  - apply nth_error_None in Hn. lia.
Qed.

Lemma getitem_empty {A : Type} (i : Z) : getitem (@nil A) i = Raise IndexError.
Proof.
  unfold getitem. simpl. destruct (i <? 0) eqn:E.
  - replace ((0 <=? i + 0) && (i + 0 <? 0)) with false by lia. reflexivity.
  - replace ((0 <=? i) && (i <? 0)) with false by lia. reflexivity.
Qed.

Lemma getitem_Ok_In {A : Type} (a : list A) (i : Z) (x : A) :
  getitem a i = Ok x -> In x a.
Proof.
  unfold getitem.
  destruct ((0 <=? (if i <? 0 then i + Z.of_nat (length a) else i))
            && ((if i <? 0 then i + Z.of_nat (length a) else i)
                <? Z.of_nat (length a))); [|discriminate].
  destruct (nth_error a _) as [y|] eqn:E; [|discriminate].
  intros [= <-]. eapply nth_error_In; eauto.
Qed.

Lemma getitem_nth {A : Type} (a : list A) (i : Z) (x : A) :
  0 <= i -> getitem a i = Ok x -> nth_error a (Z.to_nat i) = Some x.
Proof.
  intros Hi. unfold getitem. destruct (i <? 0) eqn:E; [lia|].
  destruct ((0 <=? i) && (i <? Z.of_nat (length a))); [|discriminate].
  destruct (nth_error a (Z.to_nat i)) as [y|]; [|discriminate].
  now intros [= <-].
Qed.

(** *** Loops *)

Lemma for_each_map {A B : Type} (f : A -> result B) (g : B -> A) (l : list A) :
  (forall a, In a l -> exists y, f a = Ok y /\ g y = a) ->
  exists ys, for_each f l = Ok ys /\ map g ys = l.
Proof.
  induction l as [|a l IH]; intros H; simpl.
  - exists []. split; reflexivity.
  - destruct (H a (or_introl eq_refl)) as (y & -> & Hy).
    destruct IH as (ys & -> & Hys); [intros; apply H; now right|].
    exists (y :: ys). simpl. split; [reflexivity|]. now rewrite Hy, Hys.
Qed.

Lemma for_each_Ok_map {A B : Type} (f : A -> result B) (g : A -> B)
      (l : list A) :
  (forall a, In a l -> f a = Ok (g a)) -> for_each f l = Ok (map g l).
Proof.
  induction l as [|a l IH]; intros H; cbn [for_each map]; [reflexivity|].
  rewrite (H a (or_introl eq_refl)). cbn [bind].
  rewrite IH by (intros; apply H; now right). reflexivity.
Qed.

Lemma for_each_Forall2 {A B : Type} (f : A -> result B) (l : list A)
      (ys : list B) :
  for_each f l = Ok ys -> Forall2 (fun a y => f a = Ok y) l ys.
Proof.
  revert ys. induction l as [|a l IH]; intros ys; cbn [for_each].
  - intros [= <-]. constructor.
  - destruct (f a) as [y|] eqn:Ea; [|discriminate]. cbn [bind].
    destruct (for_each f l) as [ys'|]; [|discriminate]. cbn [bind].
    intros [= <-]. constructor; [exact Ea|now apply IH].
Qed.

Lemma for_each_total {A B : Type} (f : A -> result B) (l : list A) :
  (forall a, In a l -> exists y, f a = Ok y) ->
  exists ys, for_each f l = Ok ys.
Proof.
  induction l as [|a l IH]; intros H; cbn [for_each]; [eauto|].
  destruct (H a (or_introl eq_refl)) as (y & ->).
  destruct IH as (ys & ->); [intros; apply H; now right|].
  cbn [bind]. eauto.
Qed.

Lemma Forall2_map_left {A B C : Type} (g : A -> B) (R : B -> C -> Prop)
      (l : list A) (ys : list C) :
  Forall2 R (map g l) ys -> Forall2 (fun a y => R (g a) y) l ys.
Proof.
  revert ys. induction l as [|a l IH]; intros ys H; inversion H; subst;
    constructor; auto.
Qed.

Lemma Forall2_In_right {A B : Type} (R : A -> B -> Prop) (l : list A)
      (ys : list B) (y : B) :
  Forall2 R l ys -> In y ys -> exists a, In a l /\ R a y.
Proof.
  induction 1 as [|a b l ys Hab HF IH]; intros Hin; [contradiction|].
  destruct Hin as [<-|Hin].
  - exists a. split; [now left|exact Hab].
  - destruct (IH Hin) as (a' & Ha' & HR). exists a'. split; [now right|exact HR].
Qed.

(** *** The candidate ranges *)

Lemma chunk_ranges_eq (size n : Z) :
  1 <= n ->
  chunk_ranges size n
  = Ok (map (fun i => (ceil_div size n * i, ceil_div size n * i + ceil_div size n))
            (range n)).
Proof.
  intros Hn. unfold chunk_ranges. destruct (n =? 0) eqn:E; [lia|reflexivity].
Qed.

(** The candidate ranges tile [[0, n * ceil(size / n))]. *)
Lemma chunk_ranges_contiguous_unclipped_aux (size n : Z) :
  1 <= n -> 0 <= size ->
  let rs := map (fun i => (ceil_div size n * i, ceil_div size n * i + ceil_div size n))
                (range n) in
  length rs = Z.to_nat n /\
  tiles 0 rs (ceil_div size n * n) /\
  size <= ceil_div size n * n < size + n.
Proof.
  intros Hn Hs rs. subst rs.
  pose proof (ceil_div_nonneg size n Hn Hs) as Hc.
  split; [|split].
  - now rewrite length_map, range_length.
  - pose proof (tiles_seq (ceil_div size n) (Z.to_nat n) 0 Hc) as Ht.
    unfold range. simpl in Ht.
    replace (ceil_div size n * 0) with 0 in Ht by lia.
    replace (Z.of_nat (Z.to_nat n)) with n in Ht by lia. exact Ht.
  - apply ceil_div_bounds. assumption.
Qed.

(** *** One candidate range *)

(** What [chunk_slice] returns, read off its two lookups. *)
Lemma chunk_slice_inv (idx : list (Z * Z)) (r0 r1 : Z) (s : FASTASlice) :
  chunk_slice idx (r0, r1) = Ok s ->
  exists tid tseq bid bseq,
    getitem idx (if 0 <? searchsorted (map snd idx) r0
                 then searchsorted (map snd idx) r0 - 1 else 0)
    = Ok (tid, tseq) /\
    getitem idx
      (let start := if (tid <=? r0) && (r0 <? tseq) then tid else r0 in
       if searchsorted (map snd idx) start =? Z.of_nat (length idx)
       then Z.of_nat (length idx) - 1
       else searchsorted (map snd idx) start)
    = Ok (bid, bseq) /\
    ((tid <=? r0) && (r0 <? tseq) = false -> in_uint32 r0 = true) /\
    s = mkSlice (if (tid <=? r0) && (r0 <? tseq) then 0
                 else (r0 - tseq) mod 2 ^ 32)
                (if (tid <=? r0) && (r0 <? tseq) then None
                 else Some (tid, tseq))
                (if (tid <=? r0) && (r0 <? tseq) then tid else r0)
                (if (bid <=? r1) && (r1 <? bseq) then bid else r1).
Proof.
  unfold chunk_slice.
  destruct (getitem idx _) as [[tid tseq]|] eqn:Et; [|discriminate].
  cbn [bind].
  destruct ((tid <=? r0) && (r0 <? tseq)) eqn:Ec.
  - cbn [bind].
    match goal with
    | |- bind (getitem idx ?i) _ = _ -> _ =>
        destruct (getitem idx i) as [[bid bseq]|] eqn:Eb; [|discriminate]
    end.
    cbv beta iota delta [bind]. intros [= <-]. exists tid, tseq, bid, bseq.
    rewrite Ec. cbv zeta. rewrite Eb.
    repeat split; [discriminate].
  - unfold uint32_rsub. destruct (in_uint32 r0) eqn:Eu; [|discriminate].
    cbn [bind].
    match goal with
    | |- bind (getitem idx ?i) _ = _ -> _ =>
        destruct (getitem idx i) as [[bid bseq]|] eqn:Eb; [|discriminate]
    end.
    cbv beta iota delta [bind]. intros [= <-]. exists tid, tseq, bid, bseq.
    rewrite Ec. cbv zeta. rewrite Eb.
    repeat split.
Qed.

(** Both lookups stay inside a non-empty index: a candidate range raises
    only when its start does not fit a [uint32]. *)
Lemma chunk_slice_total (idx : list (Z * Z)) (r0 r1 : Z) :
  idx <> [] -> in_uint32 r0 = true -> exists s, chunk_slice idx (r0, r1) = Ok s.
Proof.
  intros Hne Hu.
  assert (Hlen : 0 < Z.of_nat (length idx))
    by (destruct idx; simpl; [congruence|lia]).
  assert (Hbot : forall x, exists B,
             getitem idx
               (if searchsorted (map snd idx) x =? Z.of_nat (length idx)
                then Z.of_nat (length idx) - 1
                else searchsorted (map snd idx) x) = Ok B).
  { intros x. pose proof (searchsorted_bounds (map snd idx) x) as Hsb.
    rewrite length_map in Hsb.
    destruct (getitem_in_bounds idx
                (if searchsorted (map snd idx) x =? Z.of_nat (length idx)
                 then Z.of_nat (length idx) - 1
                 else searchsorted (map snd idx) x)) as (B & HB & _); [|eauto].
    destruct (searchsorted (map snd idx) x =? Z.of_nat (length idx)) eqn:E; lia. }
  unfold chunk_slice.
  pose proof (searchsorted_bounds (map snd idx) r0) as Hss.
  rewrite length_map in Hss.
  set (ti := if 0 <? searchsorted (map snd idx) r0
             then searchsorted (map snd idx) r0 - 1 else 0).
  assert (Hti : 0 <= ti < Z.of_nat (length idx)).
  { subst ti. destruct (0 <? searchsorted (map snd idx) r0) eqn:E; lia. }
  destruct (getitem_in_bounds idx ti Hti) as ([tid tseq] & -> & _).
  cbn [bind].
  destruct ((tid <=? r0) && (r0 <? tseq)); cbn [bind].
  - destruct (Hbot tid) as ([bid bseq] & ->). cbn [bind]. eauto.
  - unfold uint32_rsub. rewrite Hu. cbn [bind].
    destruct (Hbot r0) as ([bid bseq] & ->). cbn [bind]. eauto.
Qed.

(** The slices of a plan, one per candidate range. *)
Lemma partition_Forall2 (idx : list (Z * Z)) (size n : Z)
      (slices : list FASTASlice) :
  1 <= n ->
  partition_chunks_strategy idx size n = Ok slices ->
  Forall2 (fun i s =>
             chunk_slice idx (ceil_div size n * i,
                              ceil_div size n * i + ceil_div size n) = Ok s)
          (range n) slices.
Proof.
  intros Hn. unfold partition_chunks_strategy.
  rewrite chunk_ranges_eq by assumption. cbn [bind]. intros H.
  apply for_each_Forall2 in H. now apply Forall2_map_left in H.
Qed.

End Planner.

Section PlannerSorted.

Variables (idx rest : list (Z * Z)) (h0 s0 : Z).
Hypothesis Hidx : idx = (h0, s0) :: rest.
Hypothesis Hsorted : StronglySorted Z.le (map snd idx).

Lemma find_nth {A : Type} (P : A -> bool) (l : list A) (k : nat) (x : A) :
  nth_error l k = Some x -> P x = true ->
  (forall j y, (j < k)%nat -> nth_error l j = Some y -> P y = false) ->
  find P l = Some x.
Proof.
  revert k. induction l as [|a l IH]; intros k Hk Hx Hbefore.
  - destruct k; discriminate Hk.
  - cbn [find]. destruct k as [|k]; cbn [nth_error] in Hk.
    + injection Hk as ->. now rewrite Hx.
    + rewrite (Hbefore 0%nat a ltac:(lia) eq_refl).
      apply (IH k); [assumption|assumption|].
      intros j y Hj Hy. apply (Hbefore (S j) y); [lia|exact Hy].
Qed.

(** The record the top lookup takes: one whose sequence start is below
    [r0], or the first row when there is none. *)
Lemma top_lookup (r0 tid tseq : Z) :
  getitem idx (if 0 <? searchsorted (map snd idx) r0
               then searchsorted (map snd idx) r0 - 1 else 0)
  = Ok (tid, tseq) ->
  (tseq < r0 /\ s0 < r0 /\
   forall rec, In rec idx -> snd rec < r0 -> snd rec <= tseq) \/
  ((tid, tseq) = (h0, s0) /\ r0 <= s0 /\
   forall rec, In rec idx -> ~ snd rec < r0).
Proof.
  intros Ht.
  pose proof (searchsorted_bounds (map snd idx) r0) as Hb.
  destruct (0 <? searchsorted (map snd idx) r0) eqn:Ess.
  - left. apply getitem_nth in Ht; [|lia].
    assert (Hcol : nth_error (map snd idx)
                     (Z.to_nat (searchsorted (map snd idx) r0 - 1))
                   = Some tseq).
    { rewrite nth_error_map, Ht. reflexivity. }
    split; [eapply searchsorted_below; [exact Hsorted| |exact Hcol]; lia|].
    split.
    + apply (searchsorted_below (map snd idx) r0 0 s0 Hsorted); [lia|].
      now rewrite Hidx.
    + intros rec Hin Hrec.
      destruct (searchsorted_sorted_below (map snd idx) r0 (snd rec) Hsorted
                  (in_map snd _ _ Hin) Hrec) as (k & Hk & Hnth).
      eapply (sorted_nth_le (map snd idx) k);
        [exact Hsorted| |exact Hnth|exact Hcol].
      lia.
  - right. assert (Hz : searchsorted (map snd idx) r0 = 0) by lia.
    apply getitem_nth in Ht; [|lia]. rewrite Hidx in Ht.
    cbn [Z.to_nat nth_error] in Ht. injection Ht as <- <-.
    split; [reflexivity|]. split.
    + apply (proj2 (searchsorted_sorted (map snd idx) r0 Hsorted) 0%nat s0);
        [lia|now rewrite Hidx].
    + intros rec Hin Hrec.
      destruct (searchsorted_sorted_below (map snd idx) r0 (snd rec) Hsorted
                  (in_map snd _ _ Hin) Hrec) as (k & Hk & _).
      lia.
Qed.

(** The start is moved back by the first row alone. *)
Lemma top_snap (r0 tid tseq : Z) :
  getitem idx (if 0 <? searchsorted (map snd idx) r0
               then searchsorted (map snd idx) r0 - 1 else 0)
  = Ok (tid, tseq) ->
  (tid <=? r0) && (r0 <? tseq) = (h0 <=? r0) && (r0 <? s0) /\
  (if (tid <=? r0) && (r0 <? tseq) then tid else r0) = snap_to_first h0 s0 r0.
Proof.
  intros Ht. unfold snap_to_first.
  destruct (top_lookup r0 tid tseq Ht) as [(H1 & H2 & _)|(H1 & H2 & _)].
  - replace ((tid <=? r0) && (r0 <? tseq)) with false by lia.
    replace ((h0 <=? r0) && (r0 <? s0)) with false by lia. now split.
  - injection H1 as -> ->. now split.
Qed.

(** The record the bottom lookup takes. *)
Lemma bottom_lookup (start r1 bid bseq : Z) :
  getitem idx
    (if searchsorted (map snd idx) start =? Z.of_nat (length idx)
     then Z.of_nat (length idx) - 1
     else searchsorted (map snd idx) start)
  = Ok (bid, bseq) ->
  start <= r1 ->
  (r1 < s0 -> (bid, bseq) = (h0, s0)) /\
  (r1 < bseq -> find (fun rec => start <=? snd rec) idx = Some (bid, bseq)).
Proof.
  intros Hb Hle.
  pose proof (searchsorted_bounds (map snd idx) start) as Hss.
  rewrite length_map in Hss.
  assert (Hlen : 0 < Z.of_nat (length idx)) by (rewrite Hidx; cbn [length]; lia).
  split.
  - intros Hr1.
    assert (Hz : searchsorted (map snd idx) start = 0).
    { destruct (Z_lt_le_dec 0 (searchsorted (map snd idx) start)) as [H|H];
        [|lia].
      pose proof (searchsorted_below (map snd idx) start 0 s0 Hsorted H) as Hc.
      rewrite Hidx in Hc. specialize (Hc eq_refl). lia. }
    rewrite Hz in Hb.
    destruct (0 =? Z.of_nat (length idx)) eqn:E; [lia|].
    apply getitem_nth in Hb; [|lia]. rewrite Hidx in Hb.
    cbn [Z.to_nat nth_error] in Hb. now injection Hb as <- <-.
  - intros Hr1.
    destruct (searchsorted (map snd idx) start =? Z.of_nat (length idx)) eqn:E.
    + exfalso. apply getitem_nth in Hb; [|lia].
      assert (Hcol : nth_error (map snd idx)
                       (Z.to_nat (Z.of_nat (length idx) - 1)) = Some bseq).
      { rewrite nth_error_map, Hb. reflexivity. }
      apply Z.eqb_eq in E.
      assert (Hk : Z.of_nat (Z.to_nat (Z.of_nat (length idx) - 1))
                   < searchsorted (map snd idx) start) by lia.
      pose proof (searchsorted_below (map snd idx) start _ bseq Hsorted
                    Hk Hcol). lia.
    + apply Z.eqb_neq in E. apply getitem_nth in Hb; [|lia].
      apply (find_nth _ idx (Z.to_nat (searchsorted (map snd idx) start)));
        [exact Hb|cbn [snd]; lia|].
      intros j [yh ys] Hj Hy. cbn [snd].
      assert (Hcol : nth_error (map snd idx) j = Some ys).
      { rewrite nth_error_map, Hy. reflexivity. }
      assert (Hk : Z.of_nat j < searchsorted (map snd idx) start) by lia.
      pose proof (searchsorted_below (map snd idx) start j ys Hsorted
                    Hk Hcol). lia.
Qed.

(** A candidate range whose end is not cut into a later header line becomes
    the range between its two ends moved back to the first header. *)
Lemma chunk_slice_range (r0 r1 : Z) :
  in_uint32 r0 = true -> r0 <= r1 ->
  ~ end_cut_into_header idx r0 r1 ->
  exists s, chunk_slice idx (r0, r1) = Ok s /\
            slice_range s = (snap_to_first h0 s0 r0, snap_to_first h0 s0 r1).
Proof.
  intros Hu Hle Hcut.
  destruct (chunk_slice_total idx r0 r1) as (s & Hs);
    [rewrite Hidx; discriminate|exact Hu|].
  exists s. split; [exact Hs|].
  apply chunk_slice_inv in Hs.
  destruct Hs as (tid & tseq & bid & bseq & Ht & Hb & _ & ->).
  destruct (top_snap r0 tid tseq Ht) as [_ Hstart].
  cbv zeta in Hb. rewrite Hstart in Hb.
  unfold slice_range. cbn [range_0 range_1]. rewrite Hstart. f_equal.
  assert (Hsl : snap_to_first h0 s0 r0 <= r1).
  { unfold snap_to_first. destruct ((h0 <=? r0) && (r0 <? s0)) eqn:E; lia. }
  destruct (bottom_lookup _ r1 bid bseq Hb Hsl) as [Hfirst Hfind].
  unfold snap_to_first at 1.
  destruct ((h0 <=? r1) && (r1 <? s0)) eqn:E1.
  - injection (Hfirst ltac:(lia)) as -> ->. now rewrite E1.
  - destruct ((bid <=? r1) && (r1 <? bseq)) eqn:E2; [|reflexivity].
    destruct (Z.eq_dec bid r1) as [Heq|Hne]; [exact Heq|].
    exfalso. apply Hcut. unfold end_cut_into_header. rewrite Hidx.
    rewrite <- Hidx. exists (bid, bseq). cbn [fst snd].
    split; [apply Hfind; lia|]. split; lia.
Qed.

End PlannerSorted.

Lemma snap_to_first_mono (h0 s0 x y : Z) :
  x <= y -> snap_to_first h0 s0 x <= snap_to_first h0 s0 y.
Proof.
  intros Hxy. unfold snap_to_first.
  destruct ((h0 <=? x) && (x <? s0)) eqn:Ex,
           ((h0 <=? y) && (y <? s0)) eqn:Ey; lia.
Qed.

(** The candidate ranges, each end moved by the same monotone map, still
    tile. *)
Lemma tiles_seq_map (A : Z -> Z) (c : Z) (m k : nat) :
  0 <= c -> (forall x y, x <= y -> A x <= A y) ->
  tiles (A (c * Z.of_nat k))
        (map (fun i => (A (c * i), A (c * i + c))) (map Z.of_nat (seq k m)))
        (A (c * Z.of_nat (k + m))).
Proof.
  intros Hc Hmono. revert k. induction m as [|m IH]; intros k; cbn [seq map tiles].
  - f_equal. f_equal. lia.
  - split; [reflexivity|]. split; [apply Hmono; lia|].
    replace (c * Z.of_nat k + c) with (c * Z.of_nat (S k)) by lia.
    replace (k + S m)%nat with (S k + m)%nat by lia. apply IH.
Qed.

Lemma for_each_map2 {A B C : Type} (f : A -> result B) (g : B -> C)
      (h : A -> C) (l : list A) :
  (forall a, In a l -> exists y, f a = Ok y /\ g y = h a) ->
  exists ys, for_each f l = Ok ys /\ map g ys = map h l.
Proof.
  induction l as [|a l IH]; intros H; cbn [for_each map].
  - exists []. split; reflexivity.
  - destruct (H a (or_introl eq_refl)) as (y & -> & Hy).
    destruct IH as (ys & -> & Hys); [intros; apply H; now right|].
    exists (y :: ys). cbn [bind map]. split; [reflexivity|]. now rewrite Hy, Hys.
Qed.

(* ----------------------------------------------------------------- *)
(** *** Step 1: the candidate ranges *)

(** C6, as the code has it: for every object size and every [n >= 1], both
    below [2^53] (where the float quotient of the source is exact), the
    planner builds [n] candidate ranges, each of size exactly
    [ceil(size / n)], the first starting at 0 and each starting where the one
    before ends; the last one ends at [n * ceil(size / n)], which is at least
    [size] and less than [size + n]: it is not clipped to [size]. *)
Theorem chunk_ranges_contiguous_unclipped (size n : Z) :
  1 <= n < 2 ^ 53 -> 0 <= size < 2 ^ 53 ->
  exists rs,
    chunk_ranges size n = Ok rs /\
    length rs = Z.to_nat n /\
    Forall (fun r => snd r - fst r = ceil_div size n) rs /\
    tiles 0 rs (ceil_div size n * n) /\
    size <= ceil_div size n * n < size + n.
Proof.
  intros [Hn _] [Hs _]. eexists. split; [apply chunk_ranges_eq; assumption|].
  destruct (chunk_ranges_contiguous_unclipped_aux size n Hn Hs)
    as (Hlen & Htiles & Hbound).
  split; [exact Hlen|]. split; [|split; assumption].
  apply Forall_forall. intros r Hr. apply in_map_iff in Hr.
  destruct Hr as (i & <- & _). simpl. lia.
Qed.

Lemma chunk_ranges_contiguous_unclipped_witness :
  exists rs,
    chunk_ranges 10 3 = Ok rs /\
    length rs = Z.to_nat 3 /\
    Forall (fun r => snd r - fst r = ceil_div 10 3) rs /\
    tiles 0 rs (ceil_div 10 3 * 3) /\
    10 <= ceil_div 10 3 * 3 < 10 + 3.
Proof. apply (chunk_ranges_contiguous_unclipped 10 3); lia. Defined.

(** C6 fails as stated: a 10-byte object cut in 3 gets the candidate ranges
    (0,4), (4,8), (8,12); the last one passes the end of the object, and the
    list is not the clipped one. *)
Lemma chunk_ranges_last_not_clipped :
  chunk_ranges 10 3 = Ok [(0, 4); (4, 8); (8, 12)] /\
  clipped_ranges 10 3 = [(0, 4); (4, 8); (8, 10)] /\
  ~ Forall (fun r => snd r <= 10) [(0, 4); (4, 8); (8, 12)].
Proof.
  split; [reflexivity|]. split; [reflexivity|].
  intros H. do 2 apply Forall_inv_tail in H. apply Forall_inv in H.
  simpl in H. lia.
Qed.

(* ----------------------------------------------------------------- *)
(** *** The planner on an empty index *)

(** C4, as the code has it: with an empty index and [n >= 1] the planner
    raises [IndexError] on the first candidate range, whatever the object
    size; no slice is returned. *)
Theorem partition_empty_index_raises (size n : Z) :
  1 <= n -> partition_chunks_strategy [] size n = Raise IndexError.
Proof.
  intros Hn. unfold partition_chunks_strategy.
  rewrite chunk_ranges_eq by assumption. simpl bind.
  unfold range. destruct (Z.to_nat n) as [|k] eqn:E; [lia|].
  simpl. reflexivity.
Qed.

Lemma partition_empty_index_raises_witness :
  partition_chunks_strategy [] 24 2 = Raise IndexError.
Proof. apply (partition_empty_index_raises 24 2). lia. Defined.

(** C4 fails as stated: for an empty index, a 24-byte object and 2 chunks the
    planner returns no slices at all. *)
Lemma partition_empty_index_no_fallback :
  ~ exists slices, partition_chunks_strategy [] 24 2 = Ok slices.
Proof. intros (slices & H). vm_compute in H. discriminate H. Qed.

(* ----------------------------------------------------------------- *)
(** *** Coverage *)

(** C1, as the code has it by design: for a non-empty index sorted by
    sequence start whose rows lie in the object, an object size and
    [n >= 1] with [size + n <= 2^32], when no candidate range has its end
    cut back into the header line of a later row, the planner returns [n]
    slices whose ranges, in order, tile [[0, n * ceil(size / n))] with no gap
    and no overlap; that interval holds [[0, size)], its end not being
    clipped to [size].  Starts and ends that fall in the first header line
    are moved back to its start, and the ranges tile all the same. *)
Theorem partition_ranges_tile (idx : list (Z * Z)) (size n : Z) :
  idx <> [] ->
  StronglySorted Z.le (map snd idx) ->
  rows_in_object idx size ->
  1 <= n -> 0 <= size -> size + n <= 2 ^ 32 ->
  (forall k, 0 <= k < n ->
             ~ end_cut_into_header idx (ceil_div size n * k)
                                   (ceil_div size n * k + ceil_div size n)) ->
  exists slices,
    partition_chunks_strategy idx size n = Ok slices /\
    length slices = Z.to_nat n /\
    tiles 0 (map slice_range slices) (ceil_div size n * n) /\
    size <= ceil_div size n * n.
Proof.
  intros Hne Hsorted Hrows Hn Hs Hbound Hcut.
  destruct idx as [|[h0 s0] rest] eqn:Hidx; [congruence|]. rewrite <- Hidx in *.
  pose proof (ceil_div_bounds size n Hn) as Hc.
  pose proof (ceil_div_nonneg size n Hn Hs) as Hc0.
  set (c := ceil_div size n) in *.
  assert (Hfirst : 0 <= h0 /\ 0 <= s0 <= size).
  { unfold rows_in_object in Hrows. rewrite Hidx in Hrows.
    apply Forall_inv in Hrows. exact Hrows. }
  unfold partition_chunks_strategy.
  rewrite chunk_ranges_eq by assumption. cbn [bind]. fold c.
  destruct (for_each_map2 (chunk_slice idx) slice_range
              (fun r => (snap_to_first h0 s0 (fst r), snap_to_first h0 s0 (snd r)))
              (map (fun i => (c * i, c * i + c)) (range n)))
    as (slices & Hfor & Hmap).
  { intros r Hr. apply in_map_iff in Hr. destruct Hr as (i & <- & Hi).
    apply range_In in Hi. cbn [fst snd].
    apply (chunk_slice_range idx rest h0 s0 Hidx Hsorted).
    - unfold in_uint32. nia.
    - lia.
    - apply Hcut. exact Hi. }
  exists slices. split; [exact Hfor|]. split; [|split].
  - rewrite <- (length_map slice_range), Hmap, !length_map. apply range_length.
  - rewrite Hmap, map_map. cbn [fst snd].
    pose proof (tiles_seq_map (snap_to_first h0 s0) c (Z.to_nat n) 0 Hc0
                  (snap_to_first_mono h0 s0)) as Ht.
    unfold range.
    replace (snap_to_first h0 s0 (c * Z.of_nat 0)) with 0 in Ht.
    2:{ unfold snap_to_first. replace (c * Z.of_nat 0) with 0 by lia.
        destruct ((h0 <=? 0) && (0 <? s0)) eqn:E; lia. }
    replace (snap_to_first h0 s0 (c * Z.of_nat (0 + Z.to_nat n)))
      with (c * n) in Ht.
    2:{ unfold snap_to_first.
        replace (c * Z.of_nat (0 + Z.to_nat n)) with (c * n) by lia.
        destruct ((h0 <=? c * n) && (c * n <? s0)) eqn:E; lia. }
    exact Ht.
  - lia.
Qed.

Lemma partition_ranges_tile_witness :
  exists slices,
    partition_chunks_strategy [(0, 7)] 10 3 = Ok slices /\
    length slices = Z.to_nat 3 /\
    tiles 0 (map slice_range slices) (ceil_div 10 3 * 3) /\
    10 <= ceil_div 10 3 * 3.
Proof.
  apply (partition_ranges_tile [(0, 7)] 10 3).
  - discriminate.
  - cbn [map snd]. apply SSorted_cons; [apply SSorted_nil|apply Forall_nil].
  - apply Forall_cons; [cbn [fst snd]; lia|apply Forall_nil].
  - lia.
  - lia.
  - change (2 ^ 32) with 4294967296. lia.
  - intros k Hk. change (ceil_div 10 3) with 4.
    unfold end_cut_into_header, snap_to_first. cbn [find snd].
    intros (rec & Hfind & Hin & Hnot).
    destruct (_ <=? 7); [|discriminate Hfind].
    injection Hfind as <-. cbn [fst snd] in Hin. lia.
Defined.

(** C1 fails as stated, in three ways.  The last range is not clipped: index
    [(0,7)], 10 bytes, 3 chunks give the ranges (0,0), (0,8), (8,12).  A
    range end trimmed to a header start leaves a gap, the next range not
    being moved back to it: index [(0,7),(12,19),(24,40)], 40 bytes, 4 chunks
    give (0,10), (10,20), (20,24), (30,40).  An empty index gives no plan. *)
Lemma partition_ranges_do_not_cover :
  (exists slices,
      partition_chunks_strategy [(0, 7)] 10 3 = Ok slices /\
      map slice_range slices = [(0, 0); (0, 8); (8, 12)] /\
      ~ tiles 0 (map slice_range slices) 10) /\
  (exists slices,
      partition_chunks_strategy [(0, 7); (12, 19); (24, 40)] 40 4 = Ok slices /\
      map slice_range slices = [(0, 10); (10, 20); (20, 24); (30, 40)] /\
      ~ tiles 0 (map slice_range slices) 40) /\
  partition_chunks_strategy [] 10 1 = Raise IndexError.
Proof.
  split; [|split].
  - eexists. split; [vm_compute; reflexivity|]. split; [reflexivity|].
    simpl. lia.
  - eexists. split; [vm_compute; reflexivity|]. split; [reflexivity|].
    simpl. lia.
  - reflexivity.
Qed.

(* ----------------------------------------------------------------- *)
(** *** Step 3: the end of a range *)

(** C2, the code at index [(0,7),(12,19)] (the index of [file30]), 30 bytes,
    2 chunks: the first candidate range is (0,15) and 15 lies inside the
    header line (12,19), so the specification's end is 12; the code looks up
    the record with the start of the range, finds (0,7), and keeps 15. *)
Theorem partition_bottom_lookup_uses_r0 :
  preprocess_whole file30 = Ok ([(0, 7); (12, 19)], 2) /\
  Z.of_nat (length file30) = 30 /\
  chunk_ranges 30 2 = Ok [(0, 15); (15, 30)] /\
  partition_chunks_strategy [(0, 7); (12, 19)] 30 2
  = Ok [mkSlice 0 None 0 15; mkSlice 8 (Some (0, 7)) 15 30] /\
  trimmed_end [(0, 7); (12, 19)] 15 = 12.
Proof. repeat split; vm_compute; reflexivity. Qed.

(* ----------------------------------------------------------------- *)
(** *** The two-record scenario *)

(** C3, the code at the scenario's index [(0,7),(12,19)], 24 bytes, 2 chunks:
    the first slice is (0,12) with offset 0 and no header; the second slice
    starts at 12, the header start of the second record, and yet carries
    offset 5 and the header range (0,7) of the first record.  The index is
    the one of [file24]; the object the scenario spells out, [file22], has 22
    bytes and the index [(0,6),(11,17)], and its second slice likewise
    carries offset 5 and the header range (0,6). *)
Theorem partition_two_records_second_slice :
  partition_chunks_strategy [(0, 7); (12, 19)] 24 2
  = Ok [mkSlice 0 None 0 12; mkSlice 5 (Some (0, 7)) 12 24] /\
  preprocess_whole file24 = Ok ([(0, 7); (12, 19)], 2) /\
  Z.of_nat (length file24) = 24 /\
  preprocess_whole file22 = Ok ([(0, 6); (11, 17)], 2) /\
  Z.of_nat (length file22) = 22 /\
  partition_chunks_strategy [(0, 6); (11, 17)] 22 2
  = Ok [mkSlice 0 None 0 11; mkSlice 5 (Some (0, 6)) 11 22].
Proof. repeat split; vm_compute; reflexivity. Qed.

(* ================================================================= *)
(** * Properties of the materialiser *)

Section Materialiser.

Variable st : storage.

(** The payload read is checked: a status other than 200 and 206 raises, after
    that single request. *)
Lemma get_payload_status_checked (self : FASTASlice) :
  status_ok (st (range_0 self) (range_1 self - 1)) = false ->
  get st self = ([(range_0 self, range_1 self - 1)], Raise AssertionError).
Proof. intros H. unfold get. simpl. now rewrite H. Qed.

(** Without a header range the payload is returned as it is. *)
Lemma get_without_header (self : FASTASlice) :
  header self = None ->
  status_ok (st (range_0 self) (range_1 self - 1)) = true ->
  get st self
  = ([(range_0 self, range_1 self - 1)],
     Ok (Body (st (range_0 self) (range_1 self - 1)))).
Proof. intros Hh H. unfold get. simpl. now rewrite H, Hh. Qed.

(** With a header range, two requests are sent and the status of the second
    answer plays no part. *)
Lemma get_with_header (self : FASTASlice) (h0 h1 : Z) :
  header self = Some (h0, h1) ->
  status_ok (st (range_0 self) (range_1 self - 1)) = true ->
  get st self
  = ([(range_0 self, range_1 self - 1); (h0, h1 - 1)],
     Ok ((removelast (Body (st h0 (h1 - 1)))
            ++ (b " offset=" ++ decimal (offset self)) ++ [NL])
           ++ Body (st (range_0 self) (range_1 self - 1)))).
Proof. intros Hh H. unfold get. simpl. now rewrite H, Hh. Qed.

End Materialiser.

Lemma strip_trailing_newline_last (pre : bytes) (c : byte) :
  strip_trailing_newline (pre ++ [c])
  = if Byte.eqb c NL then pre else pre ++ [c].
Proof.
  induction pre as [|x pre IH]; [reflexivity|].
  cbn [app strip_trailing_newline]. rewrite IH.
  destruct (pre ++ [c]) eqn:E; [now destruct pre|].
  now destruct (Byte.eqb c NL).
Qed.

Lemma object_store_body (obj : bytes) (r0 r1 : Z) :
  Body (object_store obj r0 (r1 - 1)) = byte_range obj r0 r1.
Proof.
  unfold object_store, byte_range. simpl.
  now replace (r1 - 1 + 1 - r0) with (r1 - r0) by lia.
Qed.

(** Where the header range ends with a newline, [get] returns the fragment
    of the specification. *)
Lemma get_fragment_newline (obj : bytes) (self : FASTASlice) (h0 h1 : Z)
      (pre : bytes) :
  header self = Some (h0, h1) ->
  byte_range obj h0 h1 = pre ++ [NL] ->
  snd (get (object_store obj) self) = Ok (fragment obj self).
Proof.
  intros Hh Hb. rewrite (get_with_header (object_store obj) self h0 h1 Hh eq_refl).
  unfold fragment. rewrite Hh. cbn [snd].
  rewrite !object_store_body, Hb, removelast_last, strip_trailing_newline_last.
  change (Byte.eqb NL NL) with true. cbv iota. now rewrite <- !app_assoc.
Qed.

Lemma get_fragment_no_header (obj : bytes) (self : FASTASlice) :
  header self = None ->
  snd (get (object_store obj) self) = Ok (fragment obj self).
Proof.
  intros Hh. rewrite (get_without_header (object_store obj) self Hh eq_refl).
  unfold fragment. rewrite Hh. cbn [snd]. now rewrite object_store_body.
Qed.

(** C7, the code at a header range that no newline ends.  The object [">a"]
    has the index [(0,2)]; cut in 4, its third slice is the range (2,3) with
    the header range (0,2).  The fragment of the specification starts with
    the whole header, [">a offset=0"]; [get] returns ["> offset=0"], the
    last byte of the name gone. *)
Theorem get_header_without_newline :
  preprocess_whole file2 = Ok ([(0, 2)], 1) /\
  (exists s1 s2 s4,
      partition_chunks_strategy [(0, 2)] 2 4
      = Ok [s1; s2; mkSlice 0 (Some (0, 2)) 2 3; s4]) /\
  snd (get (object_store file2) (mkSlice 0 (Some (0, 2)) 2 3))
  = Ok (b "> offset=0" ++ [NL]) /\
  fragment file2 (mkSlice 0 (Some (0, 2)) 2 3) = b ">a offset=0" ++ [NL].
Proof.
  split; [reflexivity|]. split; [do 3 eexists; vm_compute; reflexivity|].
  split; vm_compute; reflexivity.
Qed.

(** C8, the code at a header read that fails.  For the second slice of
    [file24] the payload read answers 206 and the header read answers 500:
    [get] sends the two requests and returns bytes built from the error
    body, no exception raised.  The assertion after the header read tests the
    status of the payload answer again. *)
Theorem get_header_status_unchecked :
  let st := store_failing_at file24 0 in
  let self := mkSlice 5 (Some (0, 7)) 12 24 in
  status_ok (st 12 23) = true /\
  status_ok (st 0 6) = false /\
  get st self
  = ([(12, 23); (0, 6)],
     Ok (b "InternalErro offset=5" ++ [NL] ++ b ">seq02" ++ [NL] ++ b "GGGG" ++ [NL])).
Proof. repeat split; vm_compute; reflexivity. Qed.

(** C10: whenever the header range is present and the payload read
    succeeds, [get] drops the last byte [c] of the header bytes, whatever it
    is, before the offset annotation; when [c] is not a newline the header
    had no newline to strip, and the first line emitted is the header short
    of its last character. *)
Theorem get_drops_last_header_byte (st : storage) (self : FASTASlice)
        (h0 h1 : Z) (pre : bytes) (c : byte) :
  header self = Some (h0, h1) ->
  status_ok (st (range_0 self) (range_1 self - 1)) = true ->
  Body (st h0 (h1 - 1)) = pre ++ [c] ->
  snd (get st self)
  = Ok ((pre ++ (b " offset=" ++ decimal (offset self)) ++ [NL])
          ++ Body (st (range_0 self) (range_1 self - 1))) /\
  (c <> NL ->
   strip_trailing_newline (pre ++ [c]) = pre ++ [c] /\
   pre <> strip_trailing_newline (pre ++ [c])).
Proof.
  intros Hh Hok Hb. split.
  - rewrite (get_with_header st self h0 h1 Hh Hok). cbn [snd].
    now rewrite Hb, removelast_last.
  - intros Hc. rewrite strip_trailing_newline_last.
    destruct (Byte.eqb c NL) eqn:E.
    + apply Byte.byte_dec_bl in E. contradiction.
    + split; [reflexivity|]. intros Heq.
      apply (f_equal (@length byte)) in Heq. rewrite length_app in Heq.
      simpl in Heq. lia.
Qed.

Lemma get_drops_last_header_byte_witness :
  snd (get (object_store file2) (mkSlice 0 (Some (0, 2)) 2 3))
  = Ok ((b ">" ++ (b " offset=" ++ decimal 0) ++ [NL])
          ++ Body (object_store file2 2 (3 - 1))) /\
  (x61 <> NL ->
   strip_trailing_newline (b ">" ++ [x61]) = b ">" ++ [x61] /\
   b ">" <> strip_trailing_newline (b ">" ++ [x61])).
Proof.
  apply (get_drops_last_header_byte (object_store file2)
           (mkSlice 0 (Some (0, 2)) 2 3) 0 2 (b ">") x61);
    reflexivity.
Defined.

(* ================================================================= *)
(** * Properties of the scanner *)

Section Scanner.

Local Open Scope nat_scope.

(** *** Lines *)

Lemma readline_length_le (l : bytes) : length (readline l) <= length l.
Proof.
  induction l as [|c t IH]; simpl; [lia|].
  destruct (Byte.eqb c NL); simpl; lia.
Qed.

Lemma readline_nonempty (l : bytes) : l <> [] -> 1 <= length (readline l).
Proof.
  destruct l as [|c t]; [congruence|]. intros _. simpl.
  destruct (Byte.eqb c NL); simpl; lia.
Qed.

(** A line that holds no newline is the rest of the file. *)
Lemma readline_without_newline (l : bytes) :
  contains_newline (readline l) = false -> readline l = l.
Proof.
  induction l as [|c t IH]; simpl; [reflexivity|].
  destruct (Byte.eqb c NL) eqn:E.
  - apply Byte.byte_dec_bl in E. subst c. simpl. discriminate.
  - simpl. intros H. apply orb_false_iff in H. destruct H as [_ H].
    now rewrite (IH H).
Qed.

(** A line read from a window and ended by a newline is the line of the
    file. *)
Lemma readline_firstn (n : nat) (l : bytes) :
  contains_newline (readline (firstn n l)) = true ->
  readline (firstn n l) = readline l.
Proof.
  revert n. induction l as [|c t IH]; intros [|n]; simpl; try discriminate;
    try reflexivity.
  destruct (Byte.eqb c NL) eqn:E; [reflexivity|].
  simpl. intros H. apply orb_true_iff in H. destruct H as [H|H].
  - apply Byte.byte_dec_bl in H. subst c. discriminate E.
  - now rewrite (IH n H).
Qed.

(** Reading a line [k] bytes further does not end earlier. *)
Lemma readline_skipn (k : nat) (l : bytes) :
  length (readline l) <= k + length (readline (skipn k l)).
Proof.
  revert k. induction l as [|c t IH]; intros k.
  - simpl. lia.
  - destruct k as [|k]; [simpl; lia|].
    cbn [skipn readline]. destruct (Byte.eqb c NL); simpl.
    + lia.
    + specialize (IH k). lia.
Qed.

(** *** The regular expression *)

Lemma dots_readline (t : bytes) :
  match skipn (length (dots t)) t with
  | [] => readline t = dots t
  | n :: _ => n = NL /\ readline t = dots t ++ [n]
  end.
Proof.
  induction t as [|c t IH]; simpl; [reflexivity|].
  destruct (Byte.eqb c NL) eqn:E; simpl.
  - apply Byte.byte_dec_bl in E. now subst c.
  - destruct (skipn (length (dots t)) t) as [|n r].
    + now rewrite IH.
    + destruct IH as [-> ->]. now split.
Qed.

(** A match is the line that starts at the mark, and has two bytes at
    least. *)
Lemma re_match_readline (l g : bytes) :
  re_match l = Some g -> g = readline l /\ 2 <= length g.
Proof.
  unfold re_match. destruct l as [|c t]; [discriminate|].
  destruct (Byte.eqb c GT) eqn:E; [|discriminate].
  apply Byte.byte_dec_bl in E. subst c.
  cbn [readline]. change (Byte.eqb GT NL) with false.
  pose proof (dots_readline t) as Hd. revert Hd.
  destruct (dots t) as [|d run] eqn:Hrun; [discriminate|].
  destruct (skipn (length (d :: run)) t) as [|n r].
  - intros Hd [= <-]. rewrite Hd. simpl. split; [reflexivity|lia].
  - intros [-> Hd]. change (Byte.eqb NL NL) with true.
    intros [= <-]. rewrite Hd. simpl. split; [reflexivity|lia].
Qed.

Lemma re_match_length (l g : bytes) :
  re_match l = Some g -> 2 <= length g <= length l.
Proof.
  intros H. apply re_match_readline in H. destruct H as [-> H].
  pose proof (readline_length_le l). lia.
Qed.

(** A match without its newline is all that was left of the data. *)
Lemma re_match_without_newline (l g : bytes) :
  re_match l = Some g -> contains_newline g = false ->
  skipn (length g) l = [].
Proof.
  intros H Hn. apply re_match_readline in H. destruct H as [-> _].
  rewrite (readline_without_newline l Hn). apply skipn_all.
Qed.

(** *** The matches of a window *)

Lemma finditer_from_nil (fuel pos : nat) : finditer_from fuel pos [] = [].
Proof. now destruct fuel. Qed.

(** No match starts before the position the scan is at. *)
Lemma finditer_from_lower (fuel pos : nat) (l : bytes) :
  Forall (fun m => pos <= m_start m) (finditer_from fuel pos l).
Proof.
  revert pos l. induction fuel as [|fuel IH]; intros pos l; simpl; [constructor|].
  destruct l as [|c t]; [constructor|].
  destruct (re_match (c :: t)) as [g|].
  - constructor; [simpl; lia|].
    eapply Forall_impl; [|apply IH]. simpl. intros m Hm. lia.
  - eapply Forall_impl; [|apply IH]. simpl. intros m Hm. lia.
Qed.

(** Every match is a match of the expression at its start. *)
Lemma finditer_from_matches (data : bytes) (fuel pos : nat) (l : bytes) :
  l = skipn pos data ->
  Forall (fun m => re_match (skipn (m_start m) data) = Some (m_group m))
         (finditer_from fuel pos l).
Proof.
  revert pos l. induction fuel as [|fuel IH]; intros pos l Hl; simpl; [constructor|].
  destruct l as [|c t]; [constructor|].
  destruct (re_match (c :: t)) as [g|] eqn:Hm.
  - constructor; [simpl; now rewrite <- Hl|].
    apply IH. rewrite Hl, skipn_skipn. f_equal. lia.
  - apply IH. change (S pos) with (1 + pos). rewrite <- skipn_skipn, <- Hl.
    reflexivity.
Qed.

(** The starts go up strictly. *)
Lemma finditer_from_sorted (fuel pos : nat) (l : bytes) :
  StronglySorted lt (map m_start (finditer_from fuel pos l)).
Proof.
  revert pos l. induction fuel as [|fuel IH]; intros pos l; simpl; [constructor|].
  destruct l as [|c t]; [constructor|].
  destruct (re_match (c :: t)) as [g|] eqn:Hm; [|apply IH].
  simpl. constructor; [apply IH|].
  apply re_match_length in Hm.
  apply Forall_map. eapply Forall_impl; [|apply finditer_from_lower].
  simpl. intros m H. lia.
Qed.

(** Every match but the last one holds its newline. *)
Lemma finditer_from_newlines (fuel pos : nat) (l : bytes) :
  Forall (fun m => contains_newline (m_group m) = true)
         (removelast (finditer_from fuel pos l)).
Proof.
  revert pos l. induction fuel as [|fuel IH]; intros pos l; simpl; [constructor|].
  destruct l as [|c t]; [constructor|].
  destruct (re_match (c :: t)) as [g|] eqn:Hm; [|apply IH].
  destruct (contains_newline g) eqn:Hn.
  - destruct (finditer_from fuel (pos + length g) (skipn (length g) (c :: t)))
      as [|m ms] eqn:Hrest; [constructor|].
    change (removelast (mkMatch pos g :: m :: ms))
      with (mkMatch pos g :: removelast (m :: ms)).
    constructor; [exact Hn|].
    rewrite <- Hrest. apply IH.
  - rewrite (re_match_without_newline _ _ Hm Hn), finditer_from_nil.
    constructor.
Qed.

(** More fuel than bytes changes nothing: [finditer] is the whole scan. *)
Lemma finditer_from_fuel (fuel pos : nat) (l : bytes) :
  length l <= fuel ->
  finditer_from fuel pos l = finditer_from (length l) pos l.
Proof.
  revert fuel pos. induction l as [l IH] using (induction_ltof1 _ (@length byte)).
  unfold ltof in IH. intros fuel pos Hf.
  destruct l as [|c t]; [now rewrite !finditer_from_nil|].
  destruct fuel as [|fuel]; [simpl in Hf; lia|].
  cbn [finditer_from length]. destruct (re_match (c :: t)) as [g|] eqn:Hm.
  - apply re_match_length in Hm. f_equal.
    pose proof (length_skipn (length g) (c :: t)) as Hs.
    cbn [length] in Hm, Hs, Hf.
    assert (Hlen : length (skipn (length g) (c :: t)) < length (c :: t))
      by (cbn [length]; lia).
    rewrite (IH _ Hlen fuel) by lia.
    rewrite (IH _ Hlen (length t)) by lia. reflexivity.
  - cbn [length] in Hf. apply IH; cbn [length]; lia.
Qed.

Lemma last_match_last (ms : list re_Match) (m : re_Match) :
  last_match (ms ++ [m]) = Some m.
Proof.
  induction ms as [|x ms IH]; [reflexivity|].
  cbn [app last_match]. rewrite IH. now destruct (ms ++ [m]) eqn:E; [destruct ms|].
Qed.

End Scanner.

Section Index.

Variable cloud_object : bytes.

(** *** One window *)

Lemma window_length (chunk_id chunk_size : Z) :
  (length (window cloud_object chunk_id chunk_size) <= Z.to_nat chunk_size)%nat.
Proof. unfold window. rewrite length_firstn. lia. Qed.

(** A match that holds its newline ends where the line of the object ends. *)
Lemma match_resolved (i : nat) (chunk_size : Z) (m : re_Match) :
  0 <= chunk_size ->
  let data := window cloud_object (Z.of_nat i) chunk_size in
  re_match (skipn (m_start m) data) = Some (m_group m) ->
  contains_newline (m_group m) = true ->
  (Z.of_nat i * chunk_size + Z.of_nat (m_start m),
   Z.of_nat i * chunk_size + Z.of_nat (m_end m))
  = resolved cloud_object (i * Z.to_nat chunk_size) m.
Proof.
  intros Hcs data Hm Hn. unfold resolved, line_end, m_end.
  apply re_match_readline in Hm. destruct Hm as [Hg _].
  unfold data, window in Hg.
  rewrite skipn_firstn_comm, skipn_skipn in Hg.
  rewrite Hg in Hn. apply readline_firstn in Hn. rewrite Hn in Hg.
  replace (Z.to_nat (Z.of_nat i * chunk_size))
    with (i * Z.to_nat chunk_size)%nat in Hg by nia.
  rewrite Hg.
  replace (m_start m + i * Z.to_nat chunk_size)%nat
    with (i * Z.to_nat chunk_size + m_start m)%nat by lia.
  f_equal; nia.
Qed.

(** Every row a window yields is a mark of the window with the end of its
    line in the object: the last match, when cut, is resolved to the same
    end. *)
Lemma find_sequences_resolved (i : nat) (chunk_size : Z) :
  find_sequences cloud_object (window cloud_object (Z.of_nat i) chunk_size)
                   (Z.of_nat i) chunk_size
  = map (resolved cloud_object (i * Z.to_nat chunk_size))
        (finditer (window cloud_object (Z.of_nat i) chunk_size)).
Proof.
  destruct (Z_lt_le_dec chunk_size 0) as [Hneg|Hcs].
  { unfold window. replace (Z.to_nat chunk_size) with 0%nat by lia. reflexivity. }
  unfold find_sequences.
  set (data := window cloud_object (Z.of_nat i) chunk_size).
  pose proof (finditer_from_matches data (length data) 0 data eq_refl) as HM.
  pose proof (finditer_from_newlines (length data) 0 data) as HN.
  fold (finditer data) in HM, HN.
  assert (Hcase : finditer data = [] \/
                  exists ms ml, finditer data = ms ++ [ml]).
  { destruct (finditer data) as [|x xs] using rev_ind; [now left|right; eauto]. }
  destruct Hcase as [-> | (ms & ml & Hms)]; [reflexivity|].
  rewrite Hms in *. rewrite last_match_last.
  rewrite removelast_last in HN.
  apply Forall_app in HM. destruct HM as [HMs HMl]. apply Forall_inv in HMl.
  assert (Hinit :
    map (fun m => (Z.of_nat i * chunk_size + Z.of_nat (m_start m),
                   Z.of_nat i * chunk_size + Z.of_nat (m_end m))) ms
    = map (resolved cloud_object (i * Z.to_nat chunk_size)) ms).
  { apply map_ext_in. intros m Hin.
    apply match_resolved; [assumption| |].
    - rewrite Forall_forall in HMs. now apply HMs.
    - rewrite Forall_forall in HN. now apply HN. }
  destruct (contains_newline (m_group ml)) eqn:Hn; cbn [negb].
  - rewrite !map_app, Hinit. f_equal. cbn [map]. f_equal.
    now apply match_resolved.
  - rewrite !map_app. cbn [map]. rewrite removelast_last, Hinit. f_equal.
    unfold resolved, line_end. f_equal.
    replace (Z.to_nat (Z.of_nat i * chunk_size + Z.of_nat (m_start ml)))
      with (i * Z.to_nat chunk_size + m_start ml)%nat by nia.
    f_equal; nia.
Qed.

(** *** Order *)

Lemma line_end_mono (p q : nat) :
  (p <= q)%nat -> (line_end cloud_object p <= line_end cloud_object q)%nat.
Proof.
  intros Hpq. unfold line_end.
  pose proof (readline_skipn (q - p) (skipn p cloud_object)) as H.
  rewrite skipn_skipn in H.
  replace (q - p + p)%nat with q in H by lia. lia.
Qed.

Lemma line_end_gt (p : nat) :
  (p < length cloud_object)%nat -> (p < line_end cloud_object p)%nat.
Proof.
  intros Hp. unfold line_end.
  assert (Hne : skipn p cloud_object <> []).
  { intros E. apply (f_equal (@length byte)) in E.
    rewrite length_skipn in E. simpl in E. lia. }
  pose proof (readline_nonempty _ Hne). lia.
Qed.

Lemma find_sequences_rows (i : nat) (chunk_size : Z) :
  find_sequences cloud_object (window cloud_object (Z.of_nat i) chunk_size)
                   (Z.of_nat i) chunk_size
  = map (row cloud_object) (marks cloud_object chunk_size i).
Proof.
  rewrite find_sequences_resolved. unfold marks. rewrite map_map. reflexivity.
Qed.

Lemma marks_sorted (i : nat) (chunk_size : Z) :
  StronglySorted lt (marks cloud_object chunk_size i).
Proof.
  unfold marks, finditer.
  set (data := window cloud_object (Z.of_nat i) chunk_size).
  pose proof (finditer_from_sorted (length data) 0 data) as H.
  induction (finditer_from (length data) 0 data) as [|m ms IH];
    [constructor|].
  cbn [map] in *. apply StronglySorted_inv in H. destruct H as [Hs Hf].
  constructor; [now apply IH|].
  rewrite Forall_map in *. eapply Forall_impl; [|exact Hf].
  simpl. intros x Hx. lia.
Qed.

(** The marks of window [i] lie in the window and in the object. *)
Lemma marks_bounds (i : nat) (chunk_size : Z) (x : nat) :
  In x (marks cloud_object chunk_size i) ->
  (i * Z.to_nat chunk_size <= x < (i + 1) * Z.to_nat chunk_size)%nat /\
  (x < length cloud_object)%nat.
Proof.
  unfold marks. intros Hin. apply in_map_iff in Hin.
  destruct Hin as (m & <- & Hm).
  set (data := window cloud_object (Z.of_nat i) chunk_size) in *.
  pose proof (finditer_from_matches data (length data) 0 data eq_refl) as HM.
  rewrite Forall_forall in HM. specialize (HM m Hm). cbv beta in HM.
  apply re_match_length in HM. rewrite length_skipn in HM.
  assert (Hd : (length data <= Z.to_nat chunk_size)%nat)
    by apply window_length.
  assert (Hf : (length data
                <= length cloud_object - Z.to_nat (Z.of_nat i * chunk_size))%nat).
  { unfold data, window. rewrite length_firstn, length_skipn. lia. }
  destruct (Z_lt_le_dec chunk_size 0) as [Hneg|Hcs]; [lia|].
  replace (Z.to_nat (Z.of_nat i * chunk_size))
    with (i * Z.to_nat chunk_size)%nat in Hf by nia.
  nia.
Qed.

Lemma StronglySorted_app {A : Type} (R : A -> A -> Prop) (l1 l2 : list A) :
  StronglySorted R l1 -> StronglySorted R l2 ->
  (forall x y, In x l1 -> In y l2 -> R x y) ->
  StronglySorted R (l1 ++ l2).
Proof.
  induction l1 as [|a l1 IH]; intros H1 H2 H12; [exact H2|].
  apply StronglySorted_inv in H1. destruct H1 as [Hs Hf].
  cbn [app]. constructor.
  - apply IH; [assumption|assumption|]. intros x y Hx Hy. apply H12; [now right|exact Hy].
  - apply Forall_app. split; [exact Hf|].
    apply Forall_forall. intros y Hy. apply H12; [now left|exact Hy].
Qed.

Lemma StronglySorted_map {A B : Type} (R : A -> A -> Prop) (R' : B -> B -> Prop)
      (f : A -> B) (l : list A) :
  (forall x y, R x y -> R' (f x) (f y)) ->
  StronglySorted R l -> StronglySorted R' (map f l).
Proof.
  intros Hf. induction 1 as [|a l Hs IH Ha]; cbn [map]; constructor.
  - exact IH.
  - apply Forall_map. eapply Forall_impl; [|exact Ha]. intros x. apply Hf.
Qed.

(** The marks of the windows [k, k+1, ..., k+n-1], in that order, go up
    strictly. *)
Lemma marks_concat_sorted (chunk_size : Z) (n k : nat) :
  StronglySorted lt (concat (map (marks cloud_object chunk_size) (seq k n))) /\
  Forall (fun x => (k * Z.to_nat chunk_size <= x)%nat)
         (concat (map (marks cloud_object chunk_size) (seq k n))).
Proof.
  revert k. induction n as [|n IH]; intros k; cbn [seq map concat].
  - split; constructor.
  - destruct (IH (S k)) as [Hs Hl]. split.
    + apply StronglySorted_app; [apply marks_sorted|exact Hs|].
      intros x y Hx Hy. apply marks_bounds in Hx.
      rewrite Forall_forall in Hl. specialize (Hl y Hy). cbv beta in Hl. nia.
    + apply Forall_app. split.
      * apply Forall_forall. intros x Hx. apply marks_bounds in Hx. lia.
      * eapply Forall_impl; [|exact Hl]. intros x Hx. cbv beta in Hx. nia.
Qed.

(** The count summed window by window is the number of rows. *)
Lemma merge_count (chunk_metadata : list (list (Z * Z))) :
  fold_right (fun arr acc => Z.of_nat (length arr) + acc) 0 chunk_metadata
  = Z.of_nat (length (concat chunk_metadata)).
Proof.
  induction chunk_metadata as [|a l IH]; [reflexivity|].
  cbn [fold_right concat]. rewrite length_app, IH. lia.
Qed.

Lemma merge_fasta_metadata_cons (a : list (Z * Z)) (l : list (list (Z * Z))) :
  merge_fasta_metadata (a :: l)
  = Ok (concat (a :: l), Z.of_nat (length (concat (a :: l)))).
Proof. unfold merge_fasta_metadata. now rewrite merge_count. Qed.

(** *** The [uint32] array *)

Lemma np_array_uint32_Ok (rows : list (Z * Z)) :
  Forall (fun r => 0 <= fst r < 2 ^ 32 /\ 0 <= snd r < 2 ^ 32) rows ->
  np_array_uint32 rows = Ok rows.
Proof.
  intros H. unfold np_array_uint32.
  replace (forallb (fun r => in_uint32 (fst r) && in_uint32 (snd r)) rows)
    with true; [reflexivity|].
  symmetry. apply forallb_forall. rewrite Forall_forall in H.
  intros r Hr. specialize (H r Hr). unfold in_uint32. lia.
Qed.

Lemma np_array_uint32_inv (rows rows' : list (Z * Z)) :
  np_array_uint32 rows = Ok rows' -> rows' = rows.
Proof.
  unfold np_array_uint32. destruct (forallb _ rows); [|discriminate].
  now intros [= <-].
Qed.

Lemma line_end_le (p : nat) :
  (line_end cloud_object p <= Nat.max p (length cloud_object))%nat.
Proof.
  unfold line_end.
  pose proof (readline_length_le (skipn p cloud_object)) as H.
  rewrite length_skipn in H. lia.
Qed.

Hypothesis Hsize : Z.of_nat (length cloud_object) < 2 ^ 32.

(** In an object below 4 GiB every row fits. *)
Lemma rows_fit (marks_ : list nat) :
  (forall p, In p marks_ -> (p < length cloud_object)%nat) ->
  np_array_uint32 (map (row cloud_object) marks_)
  = Ok (map (row cloud_object) marks_).
Proof.
  intros H. apply np_array_uint32_Ok. apply Forall_map, Forall_forall.
  intros p Hp. specialize (H p Hp). pose proof (line_end_le p).
  unfold row. cbn [fst snd]. lia.
Qed.

Lemma preprocess_fasta_rows (i : nat) (chunk_size : Z) :
  preprocess_fasta cloud_object (window cloud_object (Z.of_nat i) chunk_size)
                   (Z.of_nat i) chunk_size
  = Ok (map (row cloud_object) (marks cloud_object chunk_size i)).
Proof.
  unfold preprocess_fasta. cbv zeta. rewrite find_sequences_rows.
  apply rows_fit. intros p Hp. now apply marks_bounds in Hp.
Qed.

Lemma preprocess_rows (chunk_size : Z) (num_chunks : nat) :
  (1 <= num_chunks)%nat ->
  preprocess cloud_object chunk_size num_chunks
  = Ok (map (row cloud_object)
            (concat (map (marks cloud_object chunk_size) (seq 0 num_chunks))),
        Z.of_nat (length (concat (map (marks cloud_object chunk_size)
                                      (seq 0 num_chunks))))).
Proof.
  intros Hn. unfold preprocess.
  rewrite (for_each_Ok_map _
             (fun i => map (row cloud_object) (marks cloud_object chunk_size i)))
    by (intros i _; apply preprocess_fasta_rows).
  cbn [bind]. destruct num_chunks as [|n]; [lia|].
  cbn [seq map]. rewrite merge_fasta_metadata_cons.
  change (map (row cloud_object) (marks cloud_object chunk_size 0)
            :: map (fun i => map (row cloud_object)
                               (marks cloud_object chunk_size i)) (seq 1 n))
    with (map (fun i => map (row cloud_object)
                          (marks cloud_object chunk_size i)) (seq 0 (S n))).
  change (marks cloud_object chunk_size 0
            :: map (marks cloud_object chunk_size) (seq 1 n))
    with (map (marks cloud_object chunk_size) (seq 0 (S n))).
  rewrite <- (map_map (marks cloud_object chunk_size) (map (row cloud_object))).
  rewrite <- concat_map. now rewrite length_map.
Qed.

End Index.

(** The rows of a window and of the merged index, whenever the scan returns
    them. *)
Lemma Forall2_eq_map {A B : Type} (g : A -> B) (l : list A) (ys : list B) :
  Forall2 (fun a y => y = g a) l ys -> ys = map g l.
Proof.
  induction 1 as [|a y l ys Hy _ IH]; [reflexivity|].
  cbn [map]. now rewrite Hy, IH.
Qed.

Lemma preprocess_fasta_Ok_rows (cloud_object : bytes) (chunk_size : Z)
      (i : nat) (rows : list (Z * Z)) :
  preprocess_fasta cloud_object (window cloud_object (Z.of_nat i) chunk_size)
                   (Z.of_nat i) chunk_size = Ok rows ->
  rows = map (row cloud_object) (marks cloud_object chunk_size i).
Proof.
  unfold preprocess_fasta. cbv zeta. intros H.
  apply np_array_uint32_inv in H. subst rows. apply find_sequences_rows.
Qed.

Lemma merge_fasta_metadata_Ok (chunk_metadata : list (list (Z * Z)))
      (idx : list (Z * Z)) (num_sequences : Z) :
  merge_fasta_metadata chunk_metadata = Ok (idx, num_sequences) ->
  idx = concat chunk_metadata /\ num_sequences = Z.of_nat (length idx).
Proof.
  destruct chunk_metadata as [|a l];
    [cbv beta iota zeta delta [merge_fasta_metadata]; discriminate|].
  rewrite merge_fasta_metadata_cons. intros [= <- <-]. now split.
Qed.

Lemma preprocess_Ok_rows (cloud_object : bytes) (chunk_size : Z)
      (num_chunks : nat) (idx : list (Z * Z)) (num_sequences : Z) :
  preprocess cloud_object chunk_size num_chunks = Ok (idx, num_sequences) ->
  idx = map (row cloud_object)
            (concat (map (marks cloud_object chunk_size) (seq 0 num_chunks))) /\
  num_sequences = Z.of_nat (length idx).
Proof.
  unfold preprocess.
  destruct (for_each _ (seq 0 num_chunks)) as [ys|] eqn:E; [|discriminate].
  cbn [bind]. apply for_each_Forall2 in E.
  assert (Hys : ys = map (fun i => map (row cloud_object)
                                       (marks cloud_object chunk_size i))
                         (seq 0 num_chunks)).
  { apply Forall2_eq_map. eapply Forall2_impl; [|exact E]. cbv beta.
    intros i y Hy. now apply preprocess_fasta_Ok_rows. }
  intros Hm. apply merge_fasta_metadata_Ok in Hm. destruct Hm as [Hi Hk].
  split; [|exact Hk].
  rewrite Hi, Hys, concat_map, map_map. reflexivity.
Qed.

(** C9: every row a window scan returns has its header start below its
    sequence start, and the rows of a window are in non-decreasing order of
    header start; the index merged from the windows [0 .. num_chunks-1], in
    that order, is sorted by header start and by sequence start.  The scan of
    a window and the merge do return their rows when the object is below
    4 GiB (the rows are kept as [uint32]) and there is one window at
    least. *)
Theorem preprocess_index_sorted (cloud_object : bytes) (chunk_size : Z)
        (chunk_id num_chunks : nat) :
  (forall rows,
     preprocess_fasta cloud_object
       (window cloud_object (Z.of_nat chunk_id) chunk_size)
       (Z.of_nat chunk_id) chunk_size = Ok rows ->
     Forall (fun r => fst r < snd r) rows /\
     StronglySorted Z.le (map fst rows)) /\
  (forall idx num_sequences,
     preprocess cloud_object chunk_size num_chunks = Ok (idx, num_sequences) ->
     StronglySorted Z.le (map fst idx) /\
     StronglySorted Z.le (map snd idx)) /\
  (Z.of_nat (length cloud_object) < 2 ^ 32 -> (1 <= num_chunks)%nat ->
   exists rows idx num_sequences,
     preprocess_fasta cloud_object
       (window cloud_object (Z.of_nat chunk_id) chunk_size)
       (Z.of_nat chunk_id) chunk_size = Ok rows /\
     preprocess cloud_object chunk_size num_chunks = Ok (idx, num_sequences)).
Proof.
  split; [|split].
  - intros rows Hrows. apply preprocess_fasta_Ok_rows in Hrows. subst rows.
    pose proof (marks_sorted cloud_object chunk_id chunk_size) as Hw. split.
    + apply Forall_map, Forall_forall. intros x Hx.
      apply marks_bounds in Hx. destruct Hx as [_ Hx].
      apply line_end_gt in Hx. unfold row. cbn [fst snd]. lia.
    + rewrite map_map.
      eapply StronglySorted_map; [|exact Hw]. intros x y Hxy. cbn. lia.
  - intros idx num_sequences Hidx. apply preprocess_Ok_rows in Hidx.
    destruct Hidx as [-> _].
    destruct (marks_concat_sorted cloud_object chunk_size num_chunks 0)
      as [Hs _].
    split.
    + rewrite map_map.
      eapply StronglySorted_map; [|exact Hs]. intros x y Hxy. cbn. lia.
    + rewrite map_map.
      eapply StronglySorted_map; [|exact Hs]. intros x y Hxy. cbn [row snd].
      assert (Hle : (x <= y)%nat) by lia.
      apply (line_end_mono cloud_object) in Hle. lia.
  - intros Hsize Hn. do 3 eexists.
    split; [apply (preprocess_fasta_rows cloud_object Hsize)|].
    apply (preprocess_rows cloud_object Hsize). exact Hn.
Qed.

Lemma preprocess_index_sorted_witness :
  exists rows idx num_sequences,
    preprocess_fasta file22 (window file22 (Z.of_nat 1) 11) (Z.of_nat 1) 11
    = Ok rows /\
    preprocess file22 11 2 = Ok (idx, num_sequences) /\
    Forall (fun r => fst r < snd r) rows /\
    StronglySorted Z.le (map fst rows) /\
    StronglySorted Z.le (map fst idx) /\
    StronglySorted Z.le (map snd idx).
Proof.
  destruct (preprocess_index_sorted file22 11 1 2) as (Hw & Hm & Hex).
  destruct (Hex ltac:(reflexivity) ltac:(lia))
    as (rows & idx & num_sequences & Hrows & Hidx).
  exists rows, idx, num_sequences.
  split; [exact Hrows|]. split; [exact Hidx|].
  destruct (Hw rows Hrows) as [H1 H2].
  destruct (Hm idx num_sequences Hidx) as [H3 H4].
  repeat split; assumption.
Defined.

(** C5, the code at a window cut right after a mark.  Read as one window,
    [file22] has the index [(0,6),(11,17)].  Cut in windows of 12 bytes, the
    first window ends with the [>] of the second header and the second
    starts with its name: neither matches the expression, which asks for a
    byte after the mark, and the merged index is [(0,6)].  Cut inside a
    header that holds a second [>], as [file7] in windows of 3 bytes, the
    header is indexed twice. *)
Theorem preprocess_window_cut_after_mark :
  preprocess_whole file22 = Ok ([(0, 6); (11, 17)], 2) /\
  window file22 0 12 = b ">seq1" ++ [NL] ++ b "ACGT" ++ [NL] ++ b ">" /\
  window file22 1 12 = b "seq2" ++ [NL] ++ b "GGGG" ++ [NL] /\
  preprocess file22 12 2 = Ok ([(0, 6)], 1) /\
  preprocess_whole file7 = Ok ([(0, 7)], 1) /\
  preprocess file7 3 3 = Ok ([(0, 7); (3, 7)], 2).
Proof. repeat split; vm_compute; reflexivity. Qed.

(* ================================================================= *)
(** * Further properties of the scanner *)

Section ScannerMore.

Local Open Scope nat_scope.

Lemma re_match_head (l g : bytes) :
  re_match l = Some g -> exists c t, l = GT :: c :: t /\ c <> NL.
Proof.
  unfold re_match. destruct l as [|a t]; [discriminate|].
  destruct (Byte.eqb a GT) eqn:E; [|discriminate].
  apply Byte.byte_dec_bl in E. subst a.
  destruct t as [|c t]; [discriminate|]. cbn [dots].
  destruct (Byte.eqb c NL) eqn:Ec; [discriminate|].
  intros _. exists c, t. split; [reflexivity|].
  intros ->. discriminate Ec.
Qed.

Lemma re_match_some (c : byte) (t : bytes) :
  c <> NL -> exists g, re_match (GT :: c :: t) = Some g.
Proof.
  intros Hc. unfold re_match. change (Byte.eqb GT GT) with true. cbn [dots].
  destruct (Byte.eqb c NL) eqn:Ec.
  - apply Byte.byte_dec_bl in Ec. contradiction.
  - destruct (skipn (length (c :: dots t)) (c :: t)) as [|n r]; [eauto|].
    destruct (Byte.eqb n NL); eauto.
Qed.

(** A line ends at its first newline at the latest. *)
Lemma readline_upto (l : bytes) (k : nat) :
  nth_error l k = Some NL -> length (readline l) <= k + 1.
Proof.
  revert k. induction l as [|a t IH]; intros k H.
  - destruct k; discriminate H.
  - cbn [readline]. destruct k as [|k]; cbn [nth_error] in H.
    + injection H as ->. change (Byte.eqb NL NL) with true. simpl. lia.
    + destruct (Byte.eqb a NL); cbn [length]; [lia|].
      specialize (IH k H). lia.
Qed.

(** The scan does not pass a mark that starts a line: a match before it ends
    with the newline before it at the latest. *)
Lemma finditer_from_finds (data : bytes) (s : nat) (c : byte) (t : bytes) :
  skipn s data = GT :: c :: t -> c <> NL ->
  forall fuel pos l,
    l = skipn pos data -> length l <= fuel -> pos <= s ->
    (pos < s -> nth_error data (s - 1) = Some NL) ->
    exists m, In m (finditer_from fuel pos l) /\ m_start m = s.
Proof.
  intros Hs Hc.
  assert (Hlen : s < length data).
  { apply (f_equal (@length byte)) in Hs. rewrite length_skipn in Hs.
    cbn [length] in Hs. lia. }
  induction fuel as [|fuel IH]; intros pos l Hl Hf Hpos Hnl.
  - exfalso. subst l. rewrite length_skipn in Hf. lia.
  - destruct l as [|a r] eqn:El.
    { exfalso. apply (f_equal (@length byte)) in Hl.
      rewrite length_skipn in Hl. cbn [length] in Hl. lia. }
    cbn [finditer_from].
    destruct (Nat.eq_dec pos s) as [->|Hne].
    + rewrite Hl, Hs. destruct (re_match_some c t Hc) as (g & ->).
      eexists. split; [now left|reflexivity].
    + assert (Hlt : pos < s) by lia. specialize (Hnl Hlt).
      destruct (re_match (a :: r)) as [g|] eqn:Hm.
      * pose proof (re_match_readline _ _ Hm) as [Hg _].
        assert (Hk : nth_error (a :: r) (s - 1 - pos) = Some NL).
        { rewrite Hl, nth_error_skipn. rewrite <- Hnl. f_equal. lia. }
        apply readline_upto in Hk. rewrite <- Hg in Hk.
        apply re_match_length in Hm.
        destruct (IH (pos + length g) (skipn (length g) (a :: r)))
          as (m & Hin & Hst).
        -- rewrite Hl, skipn_skipn. f_equal. lia.
        -- rewrite length_skipn. cbn [length] in *. lia.
        -- lia.
        -- intros _. exact Hnl.
        -- exists m. split; [now right|exact Hst].
      * destruct (IH (S pos) r) as (m & Hin & Hst).
        -- change (S pos) with (1 + pos). rewrite <- skipn_skipn, <- Hl.
           reflexivity.
        -- cbn [length] in Hf. lia.
        -- lia.
        -- intros _. exact Hnl.
        -- exists m. split; [exact Hin|exact Hst].
Qed.

(** Each match takes two bytes or more of the data. *)
Lemma finditer_from_count (fuel pos : nat) (l : bytes) :
  2 * length (finditer_from fuel pos l) <= length l.
Proof.
  revert pos l. induction fuel as [|fuel IH]; intros pos l; [simpl; lia|].
  destruct l as [|a r]; [simpl; lia|]. cbn [finditer_from].
  destruct (re_match (a :: r)) as [g|] eqn:Hm.
  - apply re_match_length in Hm.
    specialize (IH (pos + length g) (skipn (length g) (a :: r))).
    rewrite length_skipn in IH. cbn [length] in *. lia.
  - specialize (IH (S pos) r). cbn [length]. lia.
Qed.

End ScannerMore.

Section WindowMarks.

Variable cloud_object : bytes.

Local Open Scope nat_scope.

Lemma skipn_two {A : Type} (l : list A) (p : nat) (x y : A) :
  nth_error l p = Some x -> nth_error l (p + 1) = Some y ->
  exists t, skipn p l = x :: y :: t.
Proof.
  revert p. induction l as [|a l IH]; intros p Hx Hy.
  - destruct p; discriminate Hx.
  - destruct p as [|p]; cbn [nth_error Nat.add] in Hx, Hy.
    + injection Hx as ->. destruct l as [|a' l]; [discriminate Hy|].
      cbn [nth_error] in Hy. injection Hy as ->. now exists l.
    + cbn [skipn]. now apply IH.
Qed.

Lemma window_skipn (i : nat) (chunk_size : Z) (s : nat) :
  (0 <= chunk_size)%Z ->
  skipn s (window cloud_object (Z.of_nat i) chunk_size)
  = firstn (Z.to_nat chunk_size - s)
           (skipn (i * Z.to_nat chunk_size + s) cloud_object).
Proof.
  intros Hcs. unfold window. rewrite skipn_firstn_comm, skipn_skipn.
  replace (Z.to_nat (Z.of_nat i * chunk_size))
    with (i * Z.to_nat chunk_size) by nia.
  f_equal. f_equal. lia.
Qed.

Lemma window_nth (i : nat) (chunk_size : Z) (k : nat) :
  (0 <= chunk_size)%Z -> k < Z.to_nat chunk_size ->
  nth_error (window cloud_object (Z.of_nat i) chunk_size) k
  = nth_error cloud_object (i * Z.to_nat chunk_size + k).
Proof.
  intros Hcs Hk.
  pose proof (window_skipn i chunk_size k Hcs) as H.
  apply (f_equal (fun l => nth_error l 0)) in H.
  rewrite nth_error_skipn, Nat.add_0_r in H. rewrite H.
  destruct (Z.to_nat chunk_size - k) as [|n] eqn:E; [lia|].
  destruct (skipn (i * Z.to_nat chunk_size + k) cloud_object) as [|a t] eqn:Es.
  - apply (f_equal (fun l => nth_error l 0)) in Es.
    rewrite nth_error_skipn, Nat.add_0_r in Es. now rewrite Es.
  - apply (f_equal (fun l => nth_error l 0)) in Es.
    rewrite nth_error_skipn, Nat.add_0_r in Es. now rewrite Es.
Qed.

(** A mark of window [i] is a [>] of the object that lies in the window with
    the byte after it, which is not a newline. *)
Lemma marks_sound (i : nat) (chunk_size : Z) (p : nat) :
  In p (marks cloud_object chunk_size i) ->
  i * Z.to_nat chunk_size <= p /\
  p + 1 < (i + 1) * Z.to_nat chunk_size /\
  nth_error cloud_object p = Some GT /\
  exists c, nth_error cloud_object (p + 1) = Some c /\ c <> NL.
Proof.
  unfold marks. intros Hin. apply in_map_iff in Hin.
  destruct Hin as (m & <- & Hm).
  destruct (Z_lt_le_dec chunk_size 0) as [Hneg|Hcs].
  { exfalso. unfold window in Hm.
    replace (Z.to_nat chunk_size) with 0 in Hm by lia. exact Hm. }
  set (data := window cloud_object (Z.of_nat i) chunk_size) in *.
  pose proof (finditer_from_matches data (length data) 0 data eq_refl) as HM.
  rewrite Forall_forall in HM. specialize (HM m Hm). cbv beta in HM.
  pose proof (re_match_length _ _ HM) as Hlen. rewrite length_skipn in Hlen.
  pose proof (window_length cloud_object (Z.of_nat i) chunk_size) as Hd.
  fold data in Hd.
  destruct (re_match_head _ _ HM) as (c & t & Hsk & Hc).
  assert (H0 : nth_error data (m_start m) = Some GT).
  { apply (f_equal (fun l => nth_error l 0)) in Hsk.
    now rewrite nth_error_skipn, Nat.add_0_r in Hsk. }
  assert (H1 : nth_error data (m_start m + 1) = Some c).
  { apply (f_equal (fun l => nth_error l 1)) in Hsk.
    now rewrite nth_error_skipn in Hsk. }
  unfold data in H0, H1.
  rewrite window_nth in H0 by lia. rewrite window_nth in H1 by lia.
  split; [lia|]. split; [lia|]. split; [exact H0|].
  exists c. split; [|exact Hc]. rewrite <- H1. f_equal. lia.
Qed.

(** A [>] that starts a line, or the window, and lies in the window with the
    byte after it, which is not a newline, is a mark of the window. *)
Lemma marks_complete (i : nat) (chunk_size : Z) (p : nat) (c : byte) :
  (0 <= chunk_size)%Z ->
  i * Z.to_nat chunk_size <= p ->
  p + 1 < (i + 1) * Z.to_nat chunk_size ->
  nth_error cloud_object p = Some GT ->
  nth_error cloud_object (p + 1) = Some c -> c <> NL ->
  (p = i * Z.to_nat chunk_size \/ nth_error cloud_object (p - 1) = Some NL) ->
  In p (marks cloud_object chunk_size i).
Proof.
  intros Hcs Hlo Hhi Hgt Hnext Hc Hstart.
  set (data := window cloud_object (Z.of_nat i) chunk_size).
  set (s := p - i * Z.to_nat chunk_size).
  destruct (skipn_two cloud_object p GT c Hgt Hnext) as (t & Ht).
  assert (Hsk : exists t', skipn s data = GT :: c :: t').
  { unfold data. rewrite window_skipn by assumption.
    replace (i * Z.to_nat chunk_size + s) with p by lia. rewrite Ht.
    destruct (Z.to_nat chunk_size - s) as [|[|n]] eqn:E; [lia|lia|].
    cbn [firstn]. eauto. }
  destruct Hsk as (t' & Hsk).
  destruct (finditer_from_finds data s c t' Hsk Hc (length data) 0 data)
    as (m & Hin & Hst).
  - reflexivity.
  - lia.
  - lia.
  - intros Hpos. destruct Hstart as [Hp|Hp]; [lia|].
    unfold data. rewrite window_nth by lia. rewrite <- Hp. f_equal. lia.
  - unfold marks. apply in_map_iff. exists m. split; [lia|exact Hin].
Qed.

End WindowMarks.

Section WholeAndWindows.

Variable cloud_object : bytes.

Local Open Scope nat_scope.

Lemma StronglySorted_lt_ext (l1 l2 : list nat) :
  StronglySorted lt l1 -> StronglySorted lt l2 ->
  (forall x, In x l1 <-> In x l2) -> l1 = l2.
Proof.
  revert l2. induction l1 as [|a l1 IH]; intros l2 H1 H2 Hext.
  - destruct l2 as [|b l2]; [reflexivity|].
    exfalso. apply (Hext b). now left.
  - destruct l2 as [|b l2]; [exfalso; apply (Hext a); now left|].
    apply StronglySorted_inv in H1. destruct H1 as [Hs1 Hf1].
    apply StronglySorted_inv in H2. destruct H2 as [Hs2 Hf2].
    rewrite Forall_forall in Hf1, Hf2.
    assert (Hab : a = b).
    { destruct (proj1 (Hext a) (or_introl eq_refl)) as [E|Ha]; [now symmetry|].
      destruct (proj2 (Hext b) (or_introl eq_refl)) as [E|Hb]; [exact E|].
      specialize (Hf1 _ Hb). specialize (Hf2 _ Ha). lia. }
    subst b. f_equal. apply IH; [assumption|assumption|].
    intros x. split; intros Hx.
    + destruct (proj1 (Hext x) (or_intror Hx)) as [E|Hx']; [|exact Hx'].
      specialize (Hf1 _ Hx). lia.
    + destruct (proj2 (Hext x) (or_intror Hx)) as [E|Hx']; [|exact Hx'].
      specialize (Hf2 _ Hx). lia.
Qed.

Lemma window_whole :
  window cloud_object (Z.of_nat 0) (Z.of_nat (length cloud_object)) = cloud_object.
Proof.
  unfold window. rewrite Nat2Z.id. cbn [Z.of_nat Z.mul Z.to_nat skipn].
  apply firstn_all.
Qed.

Lemma find_sequences_length (chunk_data : bytes) (chunk_id chunk_size : Z) :
  length (find_sequences cloud_object chunk_data chunk_id chunk_size)
  = length (finditer chunk_data).
Proof.
  unfold find_sequences.
  destruct (finditer chunk_data) as [|x xs] using rev_ind; [reflexivity|].
  clear IHxs. rewrite last_match_last.
  destruct (negb (contains_newline (m_group x))).
  - rewrite map_app. cbn [map]. rewrite removelast_last.
    now rewrite !length_app, length_map.
  - now rewrite length_map.
Qed.

Hypothesis Hsize : (Z.of_nat (length cloud_object) < 2 ^ 32)%Z.

Lemma preprocess_whole_rows :
  preprocess_whole cloud_object
  = Ok (map (row cloud_object)
            (marks cloud_object (Z.of_nat (length cloud_object)) 0),
        Z.of_nat (length (marks cloud_object
                                (Z.of_nat (length cloud_object)) 0))).
Proof.
  unfold preprocess_whole.
  rewrite <- window_whole at 2.
  rewrite (preprocess_fasta_rows cloud_object Hsize 0). cbn [bind].
  rewrite merge_fasta_metadata_cons. cbn [concat].
  now rewrite app_nil_r, length_map.
Qed.

End WholeAndWindows.

(** X1: in an object below 4 GiB, every row a window yields is the row of a
    [>] byte of the object that lies in the window together with the byte
    after it, which is not a newline; the second column is the end of the
    line of that [>] in the object. *)
Theorem preprocess_fasta_row_sound (cloud_object : bytes) (chunk_size : Z)
        (i : nat) :
  Z.of_nat (length cloud_object) < 2 ^ 32 ->
  exists rows,
    preprocess_fasta cloud_object
      (window cloud_object (Z.of_nat i) chunk_size) (Z.of_nat i) chunk_size
    = Ok rows /\
    forall r, In r rows ->
      exists p : nat,
        r = (Z.of_nat p, Z.of_nat (line_end cloud_object p)) /\
        (i * Z.to_nat chunk_size <= p)%nat /\
        (p + 1 < (i + 1) * Z.to_nat chunk_size)%nat /\
        nth_error cloud_object p = Some GT /\
        exists c, nth_error cloud_object (p + 1) = Some c /\ c <> NL.
Proof.
  intros Hsize. eexists.
  split; [apply (preprocess_fasta_rows cloud_object Hsize)|].
  intros r Hin. apply in_map_iff in Hin.
  destruct Hin as (p & <- & Hp). exists p. split; [reflexivity|].
  now apply marks_sound.
Qed.

Lemma preprocess_fasta_row_sound_witness :
  exists rows,
    preprocess_fasta file22 (window file22 (Z.of_nat 1) 11) (Z.of_nat 1) 11
    = Ok rows /\
    forall r, In r rows ->
      exists p : nat,
        r = (Z.of_nat p, Z.of_nat (line_end file22 p)) /\
        (1 * Z.to_nat 11 <= p)%nat /\
        (p + 1 < (1 + 1) * Z.to_nat 11)%nat /\
        nth_error file22 p = Some GT /\
        exists c, nth_error file22 (p + 1) = Some c /\ c <> NL.
Proof. apply (preprocess_fasta_row_sound file22 11 1). reflexivity. Defined.

(** X2: in an object below 4 GiB, a [>] that starts a line (or the window),
    lies in window [i] together with the byte after it, and is not followed
    by a newline, is indexed by the scan of that window, with the end of its
    line as sequence start. *)
Theorem preprocess_fasta_finds_header (cloud_object : bytes) (chunk_size : Z)
        (i p : nat) (c : byte) :
  Z.of_nat (length cloud_object) < 2 ^ 32 ->
  0 <= chunk_size ->
  (i * Z.to_nat chunk_size <= p)%nat ->
  (p + 1 < (i + 1) * Z.to_nat chunk_size)%nat ->
  nth_error cloud_object p = Some GT ->
  nth_error cloud_object (p + 1) = Some c -> c <> NL ->
  (p = (i * Z.to_nat chunk_size)%nat \/
   nth_error cloud_object (p - 1) = Some NL) ->
  exists rows,
    preprocess_fasta cloud_object
      (window cloud_object (Z.of_nat i) chunk_size) (Z.of_nat i) chunk_size
    = Ok rows /\
    In (Z.of_nat p, Z.of_nat (line_end cloud_object p)) rows.
Proof.
  intros Hsize Hcs Hlo Hhi Hgt Hnext Hc Hstart. eexists.
  split; [apply (preprocess_fasta_rows cloud_object Hsize)|].
  apply in_map_iff. exists p.
  split; [reflexivity|]. eapply marks_complete; eassumption.
Qed.

Lemma preprocess_fasta_finds_header_witness :
  exists rows,
    preprocess_fasta file22 (window file22 (Z.of_nat 1) 11) (Z.of_nat 1) 11
    = Ok rows /\
    In (Z.of_nat 11, Z.of_nat (line_end file22 11)) rows.
Proof.
  apply (preprocess_fasta_finds_header file22 11 1 11 x73);
    [reflexivity | lia | vm_compute; lia | vm_compute; lia | reflexivity
    | reflexivity | discriminate | right; reflexivity].
Defined.

(** X4: a window of [k] bytes yields [k / 2] rows at most: the list of the
    scan has that many entries at most, and so has the array made of it. *)
Theorem preprocess_fasta_row_count (cloud_object chunk_data : bytes)
        (chunk_id chunk_size : Z) :
  (2 * length (find_sequences cloud_object chunk_data chunk_id chunk_size)
   <= length chunk_data)%nat /\
  match preprocess_fasta cloud_object chunk_data chunk_id chunk_size with
  | Ok rows => (2 * length rows <= length chunk_data)%nat
  | Raise _ => True
  end.
Proof.
  assert (H : (2 * length (find_sequences cloud_object chunk_data chunk_id
                             chunk_size) <= length chunk_data)%nat).
  { rewrite find_sequences_length. apply finditer_from_count. }
  split; [exact H|].
  destruct (preprocess_fasta cloud_object chunk_data chunk_id chunk_size)
    as [rows|] eqn:E; [|exact I].
  unfold preprocess_fasta in E. apply np_array_uint32_inv in E. now subst rows.
Qed.

Section Equivalence.

Variable cloud_object : bytes.
Hypothesis Hwf : headers_at_line_starts cloud_object.

Local Open Scope nat_scope.

(** On such an object the marks of the single window are the [>] bytes. *)
Lemma marks_whole_iff (p : nat) :
  In p (marks cloud_object (Z.of_nat (length cloud_object)) 0)
  <-> nth_error cloud_object p = Some GT.
Proof.
  split.
  - intros H. now apply marks_sound in H.
  - intros Hgt. destruct (Hwf p Hgt) as [Hstart (c & Hnext & Hc)].
    assert (Hlen : p + 1 < length cloud_object).
    { apply nth_error_Some. now rewrite Hnext. }
    apply (marks_complete cloud_object 0 _ p c);
      rewrite ?Nat2Z.id; try assumption; lia.
Qed.

(** And so are the marks of the windows, when no window ends right after a
    [>] and the windows reach the end of the object. *)
Lemma marks_windows_iff (chunk_size : Z) (n p : nat) :
  (0 < chunk_size)%Z ->
  length cloud_object <= n * Z.to_nat chunk_size ->
  no_cut_after_mark cloud_object (Z.to_nat chunk_size) ->
  In p (concat (map (marks cloud_object chunk_size) (seq 0 n)))
  <-> nth_error cloud_object p = Some GT.
Proof.
  intros Hcs Hcover Hcut. rewrite in_concat. split.
  - intros (l & Hl & Hp). apply in_map_iff in Hl.
    destruct Hl as (i & <- & _). now apply marks_sound in Hp.
  - intros Hgt. destruct (Hwf p Hgt) as [Hstart (c & Hnext & Hc)].
    set (k := Z.to_nat chunk_size) in *.
    assert (Hk : 0 < k) by (subst k; lia).
    pose proof (Nat.div_mod_eq p k) as Hdiv.
    pose proof (Nat.mod_upper_bound p k ltac:(lia)) as Hmod.
    set (i := p / k) in *.
    assert (Hwin : i * k <= p < (i + 1) * k) by nia.
    assert (Hp : p < length cloud_object).
    { apply nth_error_Some. now rewrite Hgt. }
    exists (marks cloud_object chunk_size i). split.
    + apply in_map. apply in_seq. nia.
    + apply (marks_complete cloud_object i chunk_size p c);
        try assumption; try lia.
      * apply (Hcut p i Hgt Hwin).
      * destruct Hstart as [->|H]; [left; nia|now right].
Qed.

End Equivalence.

(** X3: for an object below 4 GiB where every [>] starts a line and is
    followed by a byte of its name, scanned in one window or more of
    [chunk_size > 0] bytes that reach the end of the object and none of which
    ends right after a [>], the merged index and record count are those of
    the scan of the whole object as one window. *)
Theorem preprocess_windows_equal_whole (cloud_object : bytes) (chunk_size : Z)
        (num_chunks : nat) :
  Z.of_nat (length cloud_object) < 2 ^ 32 ->
  0 < chunk_size ->
  (1 <= num_chunks)%nat ->
  (length cloud_object <= num_chunks * Z.to_nat chunk_size)%nat ->
  headers_at_line_starts cloud_object ->
  no_cut_after_mark cloud_object (Z.to_nat chunk_size) ->
  exists idx num_sequences,
    preprocess cloud_object chunk_size num_chunks = Ok (idx, num_sequences) /\
    preprocess_whole cloud_object = Ok (idx, num_sequences).
Proof.
  intros Hsize Hcs Hn Hcover Hwf Hcut. do 2 eexists.
  split; [apply (preprocess_rows cloud_object Hsize); exact Hn|].
  rewrite (preprocess_whole_rows cloud_object Hsize).
  assert (Hmarks : marks cloud_object (Z.of_nat (length cloud_object)) 0
                   = concat (map (marks cloud_object chunk_size)
                                 (seq 0 num_chunks))).
  { apply StronglySorted_lt_ext.
    - apply marks_sorted.
    - apply marks_concat_sorted.
    - intros x. rewrite marks_windows_iff, marks_whole_iff by assumption.
      reflexivity. }
  now rewrite Hmarks.
Qed.

Lemma preprocess_windows_equal_whole_witness :
  exists idx num_sequences,
    preprocess file22 11 2 = Ok (idx, num_sequences) /\
    preprocess_whole file22 = Ok (idx, num_sequences).
Proof.
  apply (preprocess_windows_equal_whole file22 11 2).
  - reflexivity.
  - lia.
  - lia.
  - vm_compute. lia.
  - intros p H.
    do 22 (destruct p as [|p];
           [vm_compute in H;
            first [ discriminate H
                  | split; [first [left; reflexivity | right; reflexivity]
                           | eexists; split; [reflexivity | discriminate]] ]
           |]).
    vm_compute in H. destruct p; discriminate H.
  - intros p i H Hw. change (Z.to_nat 11) with 11%nat in *.
    do 22 (destruct p as [|p];
           [vm_compute in H; first [discriminate H | lia]|]).
    vm_compute in H. destruct p; discriminate H.
Defined.
(* ================================================================= *)
(** * Further properties of the planner *)

(** With [size + n <= 2^32] every candidate start fits a [uint32]. *)
Lemma candidate_start_uint32 (size n i : Z) :
  1 <= n -> 0 <= size -> size + n <= 2 ^ 32 -> 0 <= i < n ->
  in_uint32 (ceil_div size n * i) = true.
Proof.
  intros Hn Hs Hb Hi.
  pose proof (ceil_div_bounds size n Hn) as Hc.
  pose proof (ceil_div_nonneg size n Hn Hs) as Hc0.
  unfold in_uint32. apply andb_true_iff.
  split; [apply Z.leb_le|apply Z.ltb_lt]; nia.
Qed.

(** X5: with a non-empty index, [n >= 1] and an object size with
    [size + n <= 2^32], the planner raises nothing and returns [n] slices. *)
Theorem partition_nonempty_index_total (idx : list (Z * Z)) (size n : Z) :
  idx <> [] -> 1 <= n -> 0 <= size -> size + n <= 2 ^ 32 ->
  exists slices,
    partition_chunks_strategy idx size n = Ok slices /\
    length slices = Z.to_nat n.
Proof.
  intros Hne Hn Hsz Hb.
  destruct (for_each_total (chunk_slice idx)
              (map (fun i => (ceil_div size n * i,
                              ceil_div size n * i + ceil_div size n)) (range n)))
    as (slices & Hs).
  { intros r Hr. apply in_map_iff in Hr. destruct Hr as (i & <- & Hi).
    apply range_In in Hi. apply chunk_slice_total; [exact Hne|].
    now apply candidate_start_uint32. }
  exists slices. unfold partition_chunks_strategy.
  rewrite chunk_ranges_eq by assumption. cbn [bind]. split; [exact Hs|].
  apply for_each_Forall2, Forall2_length in Hs.
  now rewrite <- Hs, length_map, range_length.
Qed.

Lemma partition_nonempty_index_total_witness :
  exists slices,
    partition_chunks_strategy [(0, 7); (12, 19)] 30 4 = Ok slices /\
    length slices = Z.to_nat 4.
Proof.
  apply (partition_nonempty_index_total [(0, 7); (12, 19)] 30 4);
    [discriminate | lia | lia | lia].
Defined.

Lemma partition_header_in_index (idx : list (Z * Z)) (size n : Z)
      (slices : list FASTASlice) (s : FASTASlice) (hr : Z * Z) :
  partition_chunks_strategy idx size n = Ok slices ->
  In s slices -> header s = Some hr -> In hr idx.
Proof.
  unfold partition_chunks_strategy.
  destruct (chunk_ranges size n) as [ranges|]; [|discriminate]. cbn [bind].
  intros H Hin Hh. apply for_each_Forall2 in H.
  destruct (Forall2_In_right _ _ _ _ H Hin) as ([r0 r1] & _ & Hr).
  apply chunk_slice_inv in Hr.
  destruct Hr as (tid & tseq & bid & bseq & Ht & _ & _ & ->).
  cbn [header] in Hh.
  destruct ((tid <=? r0) && (r0 <? tseq)); [discriminate|].
  injection Hh as <-. now apply getitem_Ok_In in Ht.
Qed.

(** X6: for [n >= 1] and an object size with [size + n <= 2^32], a slice of
    the plan either has no header range and offset 0, or carries a row of the
    index as header range, and then its offset is its range start minus the
    sequence start of that row, as a [uint32]: reduced modulo [2^32]. *)
Theorem partition_header_and_offset (idx : list (Z * Z)) (size n : Z)
        (slices : list FASTASlice) (s : FASTASlice) :
  1 <= n -> 0 <= size -> size + n <= 2 ^ 32 ->
  partition_chunks_strategy idx size n = Ok slices ->
  In s slices ->
  match header s with
  | None => offset s = 0
  | Some hr => In hr idx /\ offset s = (range_0 s - snd hr) mod 2 ^ 32
  end.
Proof.
  intros _ _ _ Hp Hin.
  destruct (header s) as [hr|] eqn:Hh.
  - split; [eapply partition_header_in_index; eassumption|].
    revert Hp. unfold partition_chunks_strategy.
    destruct (chunk_ranges size n) as [ranges|]; [|discriminate]. cbn [bind].
    intros H. apply for_each_Forall2 in H.
    destruct (Forall2_In_right _ _ _ _ H Hin) as ([r0 r1] & _ & Hr).
    apply chunk_slice_inv in Hr.
    destruct Hr as (tid & tseq & bid & bseq & _ & _ & _ & ->).
    cbn [header offset range_0] in *.
    destruct ((tid <=? r0) && (r0 <? tseq)); [discriminate|].
    injection Hh as <-. reflexivity.
  - revert Hp. unfold partition_chunks_strategy.
    destruct (chunk_ranges size n) as [ranges|]; [|discriminate]. cbn [bind].
    intros H. apply for_each_Forall2 in H.
    destruct (Forall2_In_right _ _ _ _ H Hin) as ([r0 r1] & _ & Hr).
    apply chunk_slice_inv in Hr.
    destruct Hr as (tid & tseq & bid & bseq & _ & _ & _ & ->).
    cbn [header offset] in *.
    destruct ((tid <=? r0) && (r0 <? tseq)); [reflexivity|discriminate].
Qed.

Lemma partition_header_and_offset_witness :
  In (5, 10) [(5, 10)] /\ 4294967286 = (0 - snd (5, 10)) mod 2 ^ 32.
Proof.
  apply (partition_header_and_offset [(5, 10)] 20 2
           [mkSlice 4294967286 (Some (5, 10)) 0 10;
            mkSlice 0 (Some (5, 10)) 10 20]
           (mkSlice 4294967286 (Some (5, 10)) 0 10));
    [lia | lia | lia | reflexivity | left; reflexivity].
Defined.



(** X8: for [n >= 1] and an object size with [size + n <= 2^32], the planner
    never moves a range forward: a slice starts at or before the start of
    its candidate range and ends at or before its end; the end is the
    candidate's, or the header start of a row whose header line holds the
    candidate's end. *)
Theorem partition_slice_ends (idx : list (Z * Z)) (size n : Z)
        (slices : list FASTASlice) :
  1 <= n -> 0 <= size -> size + n <= 2 ^ 32 ->
  partition_chunks_strategy idx size n = Ok slices ->
  Forall2
    (fun i s =>
       let r0 := ceil_div size n * i in
       let r1 := ceil_div size n * i + ceil_div size n in
       range_0 s <= r0 /\ range_1 s <= r1 /\
       (range_1 s = r1 \/
        exists rec, In rec idx /\ fst rec <= r1 < snd rec /\
                    range_1 s = fst rec))
    (range n) slices.
Proof.
  intros Hn _ _ Hp. apply partition_Forall2 in Hp; [|assumption].
  eapply Forall2_impl; [|exact Hp]. cbv beta. intros i s Hs.
  apply chunk_slice_inv in Hs.
  destruct Hs as (tid & tseq & bid & bseq & _ & Hb & _ & ->).
  apply getitem_Ok_In in Hb.
  cbn [range_0 range_1 offset header].
  split; [destruct ((tid <=? _) && (_ <? tseq)) eqn:E; lia|].
  destruct ((bid <=? _) && (_ <? bseq)) eqn:E.
  - split; [lia|]. right. exists (bid, bseq). cbn [fst snd].
    split; [exact Hb|]. split; [lia|reflexivity].
  - split; [lia|]. now left.
Qed.

Lemma partition_slice_ends_witness :
  Forall2
    (fun i s =>
       let r0 := ceil_div 40 4 * i in
       let r1 := ceil_div 40 4 * i + ceil_div 40 4 in
       range_0 s <= r0 /\ range_1 s <= r1 /\
       (range_1 s = r1 \/
        exists rec, In rec [(0, 7); (12, 19); (24, 40)] /\
                    fst rec <= r1 < snd rec /\ range_1 s = fst rec))
    (range 4)
    [mkSlice 0 None 0 10; mkSlice 3 (Some (0, 7)) 10 20;
     mkSlice 1 (Some (12, 19)) 20 24; mkSlice 11 (Some (12, 19)) 30 40].
Proof.
  apply (partition_slice_ends [(0, 7); (12, 19); (24, 40)] 40 4);
    [lia | lia | lia | reflexivity].
Defined.

(* ================================================================= *)
(** * Further properties of the materialiser *)

Section Annotation.

Lemma digits_without_newline (d : Decimal.uint) :
  contains_newline (list_byte_of_string (NilEmpty.string_of_uint d)) = false.
Proof.
  induction d as [|d IH|d IH|d IH|d IH|d IH|d IH|d IH|d IH|d IH|d IH];
    [reflexivity|..]; exact IH.
Qed.

(** [str(n)] holds no newline. *)
Lemma decimal_without_newline (n : Z) : contains_newline (decimal n) = false.
Proof.
  unfold decimal. destruct (Z.to_int n) as [d|d]; cbn [NilZero.string_of_int].
  - destruct d; try reflexivity; apply digits_without_newline.
  - change (contains_newline (x2d :: list_byte_of_string (NilZero.string_of_uint d))
            = false).
    cbn [contains_newline existsb orb]. change (Byte.eqb NL x2d) with false.
    cbn [orb]. destruct d; try reflexivity; apply digits_without_newline.
Qed.

Lemma to_int_proper (n : Z) : Z.to_int n <> Decimal.Pos Decimal.Nil /\
                              Z.to_int n <> Decimal.Neg Decimal.Nil.
Proof.
  destruct n as [|p|p]; cbn [Z.to_int]; split; try discriminate;
    intros [= H]; now apply (DecimalPos.Unsigned.to_uint_nonnil p).
Qed.

Lemma readline_app_newline (l1 l2 : bytes) :
  contains_newline l1 = false -> readline (l1 ++ NL :: l2) = l1 ++ [NL].
Proof.
  induction l1 as [|c l1 IH]; cbn [app readline contains_newline existsb].
  - now change (Byte.eqb NL NL) with true.
  - intros H. apply orb_false_iff in H. destruct H as [Hc H].
    destruct (Byte.eqb c NL) eqn:E.
    + apply Byte.byte_dec_bl in E. subst c. discriminate Hc.
    + now rewrite (IH H).
Qed.

End Annotation.

Section Lines.

Local Open Scope nat_scope.

Lemma firstn_readline (l : bytes) : firstn (length (readline l)) l = readline l.
Proof.
  induction l as [|c t IH]; [reflexivity|]. cbn [readline].
  destruct (Byte.eqb c NL); cbn [length firstn]; [reflexivity|now rewrite IH].
Qed.

(** In an object that ends with a newline every line does. *)
Lemma readline_ends_newline (l : bytes) :
  exists pre, readline (l ++ [NL]) = pre ++ [NL].
Proof.
  induction l as [|c t (pre & IH)]; cbn [app readline].
  - change (Byte.eqb NL NL) with true. now exists [].
  - destruct (Byte.eqb c NL) eqn:E.
    + apply Byte.byte_dec_bl in E. subst c. now exists [].
    + exists (c :: pre). now rewrite IH.
Qed.

(** The bytes of a row's header range are the line of its mark. *)
Lemma byte_range_row (cloud_object : bytes) (p : nat) :
  byte_range cloud_object (Z.of_nat p) (Z.of_nat (line_end cloud_object p))
  = readline (skipn p cloud_object).
Proof.
  unfold byte_range, line_end. rewrite Nat2Z.id.
  replace (Z.to_nat (Z.of_nat (p + length (readline (skipn p cloud_object)))
                     - Z.of_nat p))
    with (length (readline (skipn p cloud_object))) by lia.
  apply firstn_readline.
Qed.

End Lines.

(** X9: [get] raises exactly when the status of the payload read is neither
    200 nor 206, with [AssertionError] and after that one request; otherwise
    it returns bytes that end with the payload body as read, having sent the
    payload request first and, when the slice has a header range, one request
    for that range. *)
Theorem get_outcome (st : storage) (self : FASTASlice) :
  let req := (range_0 self, range_1 self - 1) in
  let resp := st (range_0 self) (range_1 self - 1) in
  (status_ok resp = false ->
   get st self = ([req], Raise AssertionError)) /\
  (status_ok resp = true ->
   fst (get st self)
   = req :: match header self with
            | Some (h0, h1) => [(h0, h1 - 1)]
            | None => []
            end /\
   exists pre, snd (get st self) = Ok (pre ++ Body resp) /\
               (header self = None -> pre = [])).
Proof.
  cbv zeta. split.
  - apply get_payload_status_checked.
  - intros Hok. destruct (header self) as [[h0 h1]|] eqn:Hh.
    + rewrite (get_with_header st self h0 h1 Hh Hok). cbn [fst snd].
      split; [reflexivity|]. eexists. split; [reflexivity|discriminate].
    + rewrite (get_without_header st self Hh Hok). cbn [fst snd].
      split; [reflexivity|]. exists []. split; reflexivity.
Qed.

(** X11: when the header bytes read are [pre ++ [c]] and [pre] holds no
    newline, the first line of what [get] returns is [pre], the text
    [ offset=] and the offset in decimal, ended by a newline. *)
Theorem get_first_line (st : storage) (self : FASTASlice) (h0 h1 : Z)
        (pre : bytes) (c : byte) :
  header self = Some (h0, h1) ->
  status_ok (st (range_0 self) (range_1 self - 1)) = true ->
  Body (st h0 (h1 - 1)) = pre ++ [c] ->
  contains_newline pre = false ->
  exists out,
    snd (get st self) = Ok out /\
    readline out = pre ++ b " offset=" ++ decimal (offset self) ++ [NL].
Proof.
  intros Hh Hok Hb Hpre.
  rewrite (get_with_header st self h0 h1 Hh Hok). cbn [snd].
  eexists. split; [reflexivity|].
  rewrite Hb, removelast_last.
  replace ((pre ++ (b " offset=" ++ decimal (offset self)) ++ [NL])
             ++ Body (st (range_0 self) (range_1 self - 1)))
    with ((pre ++ b " offset=" ++ decimal (offset self))
            ++ NL :: Body (st (range_0 self) (range_1 self - 1)))
    by (now rewrite <- !app_assoc).
  rewrite readline_app_newline; [now rewrite <- !app_assoc|].
  unfold contains_newline in *. rewrite !existsb_app, Hpre.
  fold (contains_newline (decimal (offset self))).
  now rewrite decimal_without_newline.
Qed.

Lemma get_first_line_witness :
  exists out,
    snd (get (object_store file24) (mkSlice 5 (Some (0, 7)) 12 24)) = Ok out /\
    readline out = b ">seq01" ++ b " offset=" ++ decimal 5 ++ [NL].
Proof.
  apply (get_first_line (object_store file24)
           (mkSlice 5 (Some (0, 7)) 12 24) 0 7 (b ">seq01") NL);
    reflexivity.
Defined.

(** X12: the annotation tells the offset: two offsets that print the same
    annotation are equal. *)
Theorem offset_annotation_injective (m n : Z) :
  b " offset=" ++ decimal m = b " offset=" ++ decimal n -> m = n.
Proof.
  intros H. apply app_inv_head in H. unfold decimal in H.
  apply (f_equal string_of_list_byte) in H.
  rewrite !string_of_list_byte_of_string in H.
  apply (f_equal NilZero.int_of_string) in H.
  destruct (to_int_proper m) as [Hm1 Hm2], (to_int_proper n) as [Hn1 Hn2].
  rewrite !NilZero.isi in H by assumption.
  injection H as H. now apply Stdlib.Numbers.DecimalZ.to_int_inj.
Qed.

Lemma offset_annotation_injective_witness : 5 = 5.
Proof. apply (offset_annotation_injective 5 5). reflexivity. Defined.

(** X10: over a store that answers the bytes of the ranges asked, [get]
    returns the fragment of the specification for every slice without a
    header range and for every slice whose header range ends with a
    newline. *)
Theorem get_returns_fragment (obj : bytes) (self : FASTASlice) :
  (header self = None \/
   exists h0 h1 pre,
     header self = Some (h0, h1) /\ byte_range obj h0 h1 = pre ++ [NL]) ->
  snd (get (object_store obj) self) = Ok (fragment obj self).
Proof.
  intros [Hh | (h0 & h1 & pre & Hh & Hb)].
  - now apply get_fragment_no_header.
  - now apply (get_fragment_newline obj self h0 h1 pre).
Qed.

Lemma get_returns_fragment_witness :
  snd (get (object_store file24) (mkSlice 5 (Some (0, 7)) 12 24))
  = Ok (fragment file24 (mkSlice 5 (Some (0, 7)) 12 24)).
Proof.
  apply (get_returns_fragment file24 (mkSlice 5 (Some (0, 7)) 12 24)).
  right. exists 0, 7, (b ">seq01"). split; reflexivity.
Defined.

(** X13: for an object below 4 GiB that ends with a newline, scanned in
    windows and planned in [n >= 1] slices with [size + n <= 2^32], every
    slice of the plan that is not empty and starts inside the object is
    materialised, over a store that answers the bytes of the ranges asked,
    as the fragment of the specification: the header line without its
    newline, the offset annotation, a newline and the bytes of the range; or
    the bytes of the range alone. *)
Theorem scanned_plan_materialises (cloud_object pre : bytes) (chunk_size : Z)
        (num_windows : nat) (n : Z) (idx : list (Z * Z)) (num_sequences : Z)
        (slices : list FASTASlice) (s : FASTASlice) :
  cloud_object = pre ++ [NL] ->
  Z.of_nat (length cloud_object) < 2 ^ 32 ->
  preprocess cloud_object chunk_size num_windows = Ok (idx, num_sequences) ->
  1 <= n -> Z.of_nat (length cloud_object) + n <= 2 ^ 32 ->
  partition_chunks_strategy idx (Z.of_nat (length cloud_object)) n
  = Ok slices ->
  In s slices ->
  0 <= range_0 s < range_1 s ->
  range_0 s < Z.of_nat (length cloud_object) ->
  snd (get (object_store cloud_object) s) = Ok (fragment cloud_object s).
Proof.
  intros Hobj Hsize Hpre _ _ Hp Hin _ _.
  destruct (header s) as [[h0 h1]|] eqn:Hh;
    [|now apply get_fragment_no_header].
  pose proof (partition_header_in_index _ _ _ _ _ _ Hp Hin Hh) as Hrow.
  assert (Hnw : (1 <= num_windows)%nat).
  { destruct num_windows; [discriminate Hpre|lia]. }
  rewrite (preprocess_rows cloud_object Hsize) in Hpre by exact Hnw.
  injection Hpre as <- _.
  apply in_map_iff in Hrow.
  destruct Hrow as (p & Hrow & Hmark). unfold row in Hrow.
  injection Hrow as <- <-.
  apply in_concat in Hmark. destruct Hmark as (l & Hl & Hpl).
  apply in_map_iff in Hl. destruct Hl as (i & <- & _).
  apply marks_bounds in Hpl. destruct Hpl as [_ Hlen].
  assert (Hline : exists pre', readline (skipn p cloud_object) = pre' ++ [NL]).
  { rewrite Hobj. rewrite Hobj, length_app in Hlen. cbn [length] in Hlen.
    rewrite skipn_app.
    replace (p - length pre)%nat with 0%nat by lia. cbn [skipn].
    apply readline_ends_newline. }
  destruct Hline as (pre' & Hline).
  apply (get_fragment_newline cloud_object s _ _ pre' Hh).
  now rewrite byte_range_row.
Qed.

Lemma scanned_plan_materialises_witness :
  snd (get (object_store file24) (mkSlice 5 (Some (0, 7)) 12 24))
  = Ok (fragment file24 (mkSlice 5 (Some (0, 7)) 12 24)).
Proof.
  apply (scanned_plan_materialises file24 (removelast file24) 12 2 2
           [(0, 7); (12, 19)] 2
           [mkSlice 0 None 0 12; mkSlice 5 (Some (0, 7)) 12 24]);
    [reflexivity | reflexivity | reflexivity | lia | vm_compute; discriminate
    | reflexivity | right; left; reflexivity | cbn [range_0 range_1]; lia
    | vm_compute; reflexivity].
Defined.

(* ================================================================= *)
(** * Windows past the end of the object *)

Lemma window_past_end (cloud_object : bytes) (chunk_size : Z) (i : nat) :
  (length cloud_object <= i * Z.to_nat chunk_size)%nat ->
  window cloud_object (Z.of_nat i) chunk_size = [].
Proof.
  intros H. unfold window.
  destruct (Z_lt_le_dec chunk_size 0) as [Hneg|Hcs].
  - now replace (Z.to_nat chunk_size) with 0%nat by lia.
  - rewrite skipn_all2; [now destruct (Z.to_nat chunk_size)|].
    replace (Z.to_nat (Z.of_nat i * chunk_size))
      with (i * Z.to_nat chunk_size)%nat by nia.
    exact H.
Qed.

Lemma marks_past_end (cloud_object : bytes) (chunk_size : Z) (i : nat) :
  (length cloud_object <= i * Z.to_nat chunk_size)%nat ->
  marks cloud_object chunk_size i = [].
Proof. intros H. unfold marks. now rewrite window_past_end. Qed.

(** X15: in an object below 4 GiB, windows past the end of the object add
    nothing: once [n >= 1] windows reach the end of the object, scanning [k]
    more leaves the index and the record count as they are. *)
Theorem preprocess_windows_past_end (cloud_object : bytes) (chunk_size : Z)
        (n k : nat) :
  Z.of_nat (length cloud_object) < 2 ^ 32 ->
  (1 <= n)%nat ->
  (length cloud_object <= n * Z.to_nat chunk_size)%nat ->
  exists idx num_sequences,
    preprocess cloud_object chunk_size n = Ok (idx, num_sequences) /\
    preprocess cloud_object chunk_size (n + k) = Ok (idx, num_sequences).
Proof.
  intros Hsize Hn Hcover. do 2 eexists.
  split; [apply (preprocess_rows cloud_object Hsize); exact Hn|].
  rewrite (preprocess_rows cloud_object Hsize) by lia.
  assert (Hnil : concat (map (marks cloud_object chunk_size) (seq (0 + n) k))
                 = []).
  { apply concat_nil_Forall. apply Forall_forall. intros l Hl.
    apply in_map_iff in Hl. destruct Hl as (i & <- & Hi). apply in_seq in Hi.
    apply marks_past_end. nia. }
  now rewrite seq_app, map_app, concat_app, Hnil, app_nil_r.
Qed.

Lemma preprocess_windows_past_end_witness :
  exists idx num_sequences,
    preprocess file22 11 2 = Ok (idx, num_sequences) /\
    preprocess file22 11 (2 + 3) = Ok (idx, num_sequences).
Proof.
  apply (preprocess_windows_past_end file22 11 2 3);
    [reflexivity | lia | vm_compute; lia].
Defined.

(* ================================================================= *)
(** * The rows of the index, byte by byte *)

Section RowBytes.

Local Open Scope nat_scope.

(** A line holds no newline but its last byte, and stops before the end of
    the file only after a newline. *)
Lemma readline_bytes (l : bytes) :
  (forall j, j + 1 < length (readline l) -> nth_error l j <> Some NL) /\
  ((1 <= length (readline l) /\
    nth_error l (length (readline l) - 1) = Some NL) \/
   length (readline l) = length l).
Proof.
  induction l as [|c t [IHa IHb]]; cbn [readline].
  - split; [cbn [length]; intros j Hj; lia|now right].
  - destruct (Byte.eqb c NL) eqn:E.
    + apply Byte.byte_dec_bl in E. subst c. cbn [length]. split.
      * intros j Hj. lia.
      * left. split; [lia|reflexivity].
    + cbn [length]. split.
      * intros [|j] Hj; cbn [nth_error].
        -- intros [= ->]. discriminate E.
        -- apply IHa. lia.
      * destruct IHb as [[Hk Hn]|Hk].
        -- left. split; [lia|].
           replace (S (length (readline t)) - 1)
             with (S (length (readline t) - 1)) by lia.
           exact Hn.
        -- right. now rewrite Hk.
Qed.

End RowBytes.

(** X16: in an object below 4 GiB, for every row [(h, s)] a window yields,
    [h < s], [s] does not pass the end of the object, no byte of the object
    in [[h, s - 1)] is a newline, and the byte at [s - 1] is a newline unless
    [s] is the end of the object: the sequence start is the offset right
    after the first newline that follows the header start, or the end of the
    object. *)
Theorem preprocess_fasta_row_line (cloud_object : bytes) (chunk_size : Z)
        (i : nat) :
  Z.of_nat (length cloud_object) < 2 ^ 32 ->
  exists rows,
    preprocess_fasta cloud_object
      (window cloud_object (Z.of_nat i) chunk_size) (Z.of_nat i) chunk_size
    = Ok rows /\
    forall r, In r rows ->
      exists h s : nat,
        r = (Z.of_nat h, Z.of_nat s) /\
        (h < s <= length cloud_object)%nat /\
        (forall q, (h <= q)%nat -> (q + 1 < s)%nat ->
                   nth_error cloud_object q <> Some NL) /\
        (nth_error cloud_object (s - 1) = Some NL \/ s = length cloud_object).
Proof.
  intros Hsize. eexists.
  split; [apply (preprocess_fasta_rows cloud_object Hsize)|].
  intros r Hin. apply in_map_iff in Hin.
  destruct Hin as (p & <- & Hp). apply marks_bounds in Hp.
  destruct Hp as [_ Hlen].
  exists p, (line_end cloud_object p). split; [reflexivity|].
  pose proof (line_end_gt cloud_object p Hlen) as Hgt.
  pose proof (readline_bytes (skipn p cloud_object)) as [Ha Hb].
  pose proof (readline_length_le (skipn p cloud_object)) as Hle.
  rewrite length_skipn in Hle, Hb.
  unfold line_end in *. split; [lia|]. split.
  - intros q Hq1 Hq2. specialize (Ha (q - p)%nat ltac:(lia)).
    rewrite nth_error_skipn in Ha.
    now replace (p + (q - p))%nat with q in Ha by lia.
  - destruct Hb as [[Hk Hn]|Hk]; [left|right; lia].
    rewrite nth_error_skipn in Hn. rewrite <- Hn. f_equal. lia.
Qed.

Lemma preprocess_fasta_row_line_witness :
  exists rows,
    preprocess_fasta file22 (window file22 (Z.of_nat 1) 11) (Z.of_nat 1) 11
    = Ok rows /\
    forall r, In r rows ->
      exists h s : nat,
        r = (Z.of_nat h, Z.of_nat s) /\
        (h < s <= length file22)%nat /\
        (forall q, (h <= q)%nat -> (q + 1 < s)%nat ->
                   nth_error file22 q <> Some NL) /\
        (nth_error file22 (s - 1) = Some NL \/ s = length file22).
Proof. apply (preprocess_fasta_row_line file22 11 1). reflexivity. Defined.

(** X17: for an object below 4 GiB scanned in one window or more, in the
    index merged from the windows [0 .. num_chunks-1] the header starts go up
    strictly: no mark is indexed twice; every row lies in the object; and
    the record count returned is the number of rows of the index. *)
Theorem preprocess_header_starts_increasing (cloud_object : bytes)
        (chunk_size : Z) (num_chunks : nat) :
  Z.of_nat (length cloud_object) < 2 ^ 32 ->
  (1 <= num_chunks)%nat ->
  exists idx num_sequences,
    preprocess cloud_object chunk_size num_chunks = Ok (idx, num_sequences) /\
    StronglySorted Z.lt (map fst idx) /\
    Forall (fun r => 0 <= fst r < snd r /\
                     snd r <= Z.of_nat (length cloud_object)) idx /\
    num_sequences = Z.of_nat (length idx).
Proof.
  intros Hsize Hn. do 2 eexists.
  split; [apply (preprocess_rows cloud_object Hsize); exact Hn|].
  destruct (marks_concat_sorted cloud_object chunk_size num_chunks 0) as [Hs _].
  split; [|split].
  - rewrite map_map. eapply StronglySorted_map; [|exact Hs].
    intros x y Hxy. cbn. lia.
  - apply Forall_map, Forall_forall. intros p Hp.
    apply in_concat in Hp. destruct Hp as (l & Hl & Hp).
    apply in_map_iff in Hl. destruct Hl as (i & <- & _).
    apply marks_bounds in Hp. destruct Hp as [_ Hlen].
    pose proof (line_end_gt cloud_object p Hlen) as Hgt.
    pose proof (readline_length_le (skipn p cloud_object)) as Hle.
    rewrite length_skipn in Hle. unfold row, line_end in *. cbn [fst snd].
    lia.
  - now rewrite length_map.
Qed.

Lemma preprocess_header_starts_increasing_witness :
  exists idx num_sequences,
    preprocess file22 11 2 = Ok (idx, num_sequences) /\
    StronglySorted Z.lt (map fst idx) /\
    Forall (fun r => 0 <= fst r < snd r /\
                     snd r <= Z.of_nat (length file22)) idx /\
    num_sequences = Z.of_nat (length idx).
Proof.
  apply (preprocess_header_starts_increasing file22 11 2); [reflexivity|lia].
Defined.
